(** * LinkedBST: a link-based binary search tree (linkedbst.py)

    A shallow embedding of the class [LinkedBST] and of the properties its
    specification states about it.

    Conventions of the embedding.
    - A Python reference to a node ([None] or a [BSTNode]) is a value of the
      inductive type [BSTNode]: [Absent] is [None].  Nodes are owned by one
      parent only, so in-place updates of [left], [right] and [data] are
      modelled by rebuilding the path from the root to the updated node.
    - An object of the class is the record [LinkedBST] of its two fields.
      A method that mutates the object is a function of type [M A X]: it takes
      the object and gives back an outcome and the object as the call left
      it, also when the outcome is an exception.
    - A Python exception is an outcome [Raise e].
    - The items are any type with Python's comparison operators, the class
      [Comparable]; the laws of a total order are the class [TotalOrder].
    - Python's limit on the depth of recursion is not modelled. *)

From Stdlib Require Import List ZArith Bool Lia Sorted Permutation.
From Stdlib Require String QArith Qround.
Import ListNotations.
Import String.StringSyntax.
Delimit Scope string_scope with string.

Set Implicit Arguments.

(** ** Outcomes of Python code *)

(** The exceptions the methods can raise.  [OutOfFuel] is not one of
    Python's: it marks a loop or recursion of the model cut short by its
    bound, which does not happen for the bounds the methods supply. *)
Inductive exn : Type :=
| KeyError | AttributeError | TypeError | ValueError | IndexError | OutOfFuel.

Inductive result (X : Type) : Type :=
| Return (x : X)
| Raise (e : exn).

Arguments Return {X} x.
Arguments Raise {X} e.

Definition bind_result {X Y : Type} (c : result X) (k : X -> result Y) : result Y :=
  match c with
  | Return x => k x
  | Raise e => Raise e
  end.

Declare Scope py_scope.
Delimit Scope py_scope with py.

Notation "x <- c ;; k" := (bind_result c (fun x => k))
  (at level 61, c at next level, right associativity) : py_scope.

(** ** The items: Python's comparison operators

    [py_in_range low high item] is the value of the Python expression
    [item in range(low, high+1)]: [range] accepts integers only, and [high+1]
    numbers only. *)

Class Comparable (A : Type) : Type := {
  py_eq : A -> A -> bool;
  py_lt : A -> A -> bool;
  py_gt : A -> A -> bool;
  py_ge : A -> A -> bool;
  py_in_range : A -> A -> A -> result bool
}.

Class TotalOrder (A : Type) {C : Comparable A} : Prop := {
  py_eq_true : forall x y : A, py_eq x y = true <-> x = y;
  py_gt_lt : forall x y : A, py_gt x y = py_lt y x;
  py_ge_lt : forall x y : A, py_ge x y = negb (py_lt x y);
  py_lt_irrefl : forall x : A, py_lt x x = false;
  py_lt_trans : forall x y z : A,
      py_lt x y = true -> py_lt y z = true -> py_lt x z = true;
  py_lt_total : forall x y : A,
      py_lt x y = false -> py_lt y x = false -> x = y
}.

Arguments TotalOrder A {C}.

(** Python's [int]: unbounded integers.  [item in range(low, high+1)] on
    integers is the arithmetic test [low <= item < high+1]. *)
#[export] Instance Comparable_int : Comparable Z := {
  py_eq := Z.eqb;
  py_lt := Z.ltb;
  py_gt := Z.gtb;
  py_ge := Z.geb;
  py_in_range := fun low high item =>
    Return (Z.leb low item && Z.ltb item (high + 1))
}.

(** Python's [str], compared by code points.  [high+1] on a string raises
    [TypeError] (a string and an integer do not concatenate), hence so does
    [item in range(low, high+1)]. *)
#[export] Instance Comparable_str : Comparable String.string := {
  py_eq := String.eqb;
  py_lt := String.ltb;
  py_gt := fun x y => String.ltb y x;
  py_ge := fun x y => String.leb y x;
  py_in_range := fun _ _ _ => Raise TypeError
}.

(** Python's numbers, [int] and [float] together.  A float is given by the
    rational it holds (infinities and NaN left out); the methods only
    compare items, and Python compares numbers by value.  [range] accepts
    bounds of type [int] only; a float is in a range when it equals one of
    its integers. *)
Inductive number : Type :=
| PyInt (z : Z)
| PyFloat (q : QArith_base.Q).

Definition value (n : number) : QArith_base.Q :=
  match n with
  | PyInt z => QArith_base.inject_Z z
  | PyFloat q => q
  end.

#[export] Instance Comparable_number : Comparable number := {
  py_eq := fun x y => QArith_base.Qeq_bool (value x) (value y);
  py_lt := fun x y => negb (QArith_base.Qle_bool (value y) (value x));
  py_gt := fun x y => negb (QArith_base.Qle_bool (value x) (value y));
  py_ge := fun x y => QArith_base.Qle_bool (value y) (value x);
  py_in_range := fun low high item =>
    match low, high with
    | PyInt lo, PyInt hi =>
        match item with
        | PyInt z => Return (Z.leb lo z && Z.ltb z (hi + 1))
        | PyFloat q =>
            Return (QArith_base.Qeq_bool q (QArith_base.inject_Z (Qround.Qfloor q))
                    && Z.leb lo (Qround.Qfloor q)
                    && Z.ltb (Qround.Qfloor q) (hi + 1))
        end
    | _, _ => Raise TypeError
    end
}.

(** ** Nodes and trees *)

(** Modelled from the spec: the class [BSTNode] (bstnode.py) is missing; the
    specification gives a node one item [data] and two links [left] and
    [right], each absent or owning one child. *)
Inductive BSTNode (A : Type) : Type :=
| Absent
| Node (left : BSTNode A) (data : A) (right : BSTNode A).

Arguments Absent {A}.
Arguments Node {A} left data right.

Definition is_None {A : Type} (node : BSTNode A) : bool :=
  match node with
  | Absent => true
  | Node _ _ _ => false
  end.

(** ** The object *)

Record LinkedBST (A : Type) : Type := mkLinkedBST {
  _root : BSTNode A;
  _size : Z
}.

Arguments mkLinkedBST {A} _root _size.

(** A method that may mutate [self]. *)
Definition M (A X : Type) : Type := LinkedBST A -> result X * LinkedBST A.

Section Methods.

Context {A : Type} `{Comparable A}.

Local Open Scope py_scope.

(** Modelled from the spec: [isEmpty] belongs to the missing base class
    [AbstractCollection]; the specification keeps a count [size] of the
    stored items and calls the tree empty when it is zero. *)
Definition isEmpty (self : LinkedBST A) : bool := (_size self =? 0)%Z.

(** [inorder]: the helper [recurse] appends to [lyst] left, self, right. *)
Fixpoint inorder_recurse (node : BSTNode A) : list A :=
  match node with
  | Absent => []
  | Node l d r => inorder_recurse l ++ d :: inorder_recurse r
  end.

Definition inorder (self : LinkedBST A) : list A := inorder_recurse (_root self).

(** The number of nodes under a link. *)
Fixpoint count (node : BSTNode A) : nat :=
  match node with
  | Absent => O
  | Node l _ r => S (count l + count r)
  end.

(** Modelled from the spec: the class [LinkedStack] (linkedstack.py) is
    missing; the specification describes a last-in-first-out stack.  The
    stack is a list with its top first; [pop] is the match on the list. *)
Definition push (node : BSTNode A) (stack : list (BSTNode A)) : list (BSTNode A) :=
  node :: stack.

(** [__iter__]: the pre-order traversal with an explicit stack, as the list
    of the items it yields.  Each turn of the loop pops one node, and
    [__iter__] supplies the number of nodes of the tree as the bound. *)
Fixpoint iter_loop (fuel : nat) (stack : list (BSTNode A)) : result (list A) :=
  match stack with
  | [] => Return []
  | node :: stack' =>
      match fuel, node with
      | O, _ => Raise OutOfFuel
      | _, Absent => Raise AttributeError
      | S fuel', Node l d r =>
          let stack1 := if is_None r then stack' else push r stack' in
          let stack2 := if is_None l then stack1 else push l stack1 in
          rest <- iter_loop fuel' stack2 ;; Return (d :: rest)
      end
  end.

Definition iter (self : LinkedBST A) : result (list A) :=
  if negb (isEmpty self) then iter_loop (count (_root self)) (push (_root self) [])
  else Return [].

(** [find]: the helper [recurse]. *)
Fixpoint find_recurse (item : A) (node : BSTNode A) : option A :=
  match node with
  | Absent => None
  | Node l d r =>
      if py_eq item d then Some d
      else if py_lt item d then find_recurse item l
      else find_recurse item r
  end.

Definition find (self : LinkedBST A) (item : A) : option A :=
  find_recurse item (_root self).

(** [__contains__]: [self.find(item) is not None]. *)
Definition contains (self : LinkedBST A) (item : A) : bool :=
  match find self item with
  | Some _ => true
  | None => false
  end.

(** [clear] *)
Definition clear : M A unit := fun _ => (Return tt, mkLinkedBST Absent 0).

(** [add]: the helper [recurse] reads [node.data] first, which fails on
    [None]; it is called on [self._root] when [isEmpty] is false. *)
Fixpoint add_recurse (item : A) (node : BSTNode A) : result (BSTNode A) :=
  match node with
  | Absent => Raise AttributeError
  | Node l d r =>
      if py_lt item d then
        if is_None l then Return (Node (Node Absent item Absent) d r)
        else l' <- add_recurse item l ;; Return (Node l' d r)
      else
        if is_None r then Return (Node l d (Node Absent item Absent))
        else r' <- add_recurse item r ;; Return (Node l d r')
  end.

Definition add (item : A) : M A unit := fun self =>
  if isEmpty self then
    (Return tt, mkLinkedBST (Node Absent item Absent) (_size self + 1))
  else
    match add_recurse item (_root self) with
    | Return root' => (Return tt, mkLinkedBST root' (_size self + 1))
    | Raise e => (Raise e, self)
    end.

(** [remove]: the helper [lift_max_in_left_subtree_to_top].  The loop walks
    down the right links from [top.left]; [lift_max l d r] is the walk at
    the node [Node l d r]: it gives the datum of the last node of the walk
    and the subtree with that node replaced by its left child.  The test
    [parent == top] compares two nodes by identity: it holds when the loop
    made no step. *)
Fixpoint lift_max (l : BSTNode A) (d : A) (r : BSTNode A) : A * BSTNode A :=
  match r with
  | Absent => (d, l)
  | Node rl rd rr =>
      let (m, r') := lift_max rl rd rr in (m, Node l d r')
  end.

(** What the three cases of [remove] leave in place of the located node. *)
Definition unlink (l : BSTNode A) (d : A) (r : BSTNode A) : BSTNode A :=
  match l, r with
  | Node ll ld lr, Node _ _ _ =>
      let (m, l') := lift_max ll ld lr in Node l' m r
  | Absent, _ => r
  | _, Absent => l
  end.

(** The loop of [remove] that locates the node, followed by the relinking:
    the item removed and what [pre_root.left] holds afterwards, or [None]
    when the loop ends on an absent link. *)
Fixpoint remove_locate (item : A) (current_node : BSTNode A)
  : option (A * BSTNode A) :=
  match current_node with
  | Absent => None
  | Node l d r =>
      if py_eq d item then Some (d, unlink l d r)
      else if py_gt d item then
        match remove_locate item l with
        | Some (v, l') => Some (v, Node l' d r)
        | None => None
        end
      else
        match remove_locate item r with
        | Some (v, r') => Some (v, Node l d r')
        | None => None
        end
  end.

Definition remove (item : A) : M A (option A) := fun self =>
  if negb (contains self item) then (Raise KeyError, self)
  else if isEmpty self then (Return None, self)
  else
    match remove_locate item (_root self) with
    | None => (Return None, self)
    | Some (item_removed, pre_root_left) =>
        let size' := (_size self - 1)%Z in
        (Return (Some item_removed),
         mkLinkedBST (if (size' =? 0)%Z then Absent else pre_root_left) size')
    end.

(** [replace]: the loop over [probe]. *)
Fixpoint replace_probe (item new_item : A) (probe : BSTNode A)
  : option (A * BSTNode A) :=
  match probe with
  | Absent => None
  | Node l d r =>
      if py_eq d item then Some (d, Node l new_item r)
      else if py_gt d item then
        match replace_probe item new_item l with
        | Some (old, l') => Some (old, Node l' d r)
        | None => None
        end
      else
        match replace_probe item new_item r with
        | Some (old, r') => Some (old, Node l d r')
        | None => None
        end
  end.

Definition replace (item new_item : A) : M A (option A) := fun self =>
  match replace_probe item new_item (_root self) with
  | Some (old_data, root') => (Return (Some old_data), mkLinkedBST root' (_size self))
  | None => (Return None, self)
  end.

(** [height]: the helper [height1]. *)
Fixpoint height1 (top : BSTNode A) : Z :=
  match top with
  | Absent => -1
  | Node l _ r => 1 + Z.max (height1 l) (height1 r)
  end.

Definition height (self : LinkedBST A) : Z := height1 (_root self).

(** [is_balanced]: [height() <= ceil(log2(size + 1) - 1)].  The logarithm
    is taken exactly here ([Z.log2_up n] is the ceiling of the binary
    logarithm of [n]); Python computes it in floating point, which agrees
    as long as [size + 1] is exactly representable and not within rounding
    distance of a power of two.  [log2] of a number that is not positive
    raises [ValueError]. *)
Definition is_balanced (self : LinkedBST A) : result bool :=
  if (_size self + 1 <=? 0)%Z then Raise ValueError
  else Return (height self <=? Z.log2_up (_size self + 1) - 1)%Z.

(** [range_find]: the loop over the items of the in-order traversal; the
    test [item in range(low, high+1)] is evaluated once per item. *)
Fixpoint range_find_loop (low high : A) (items : list A) (list_in_range : list A)
  : result (list A) :=
  match items with
  | [] => Return list_in_range
  | item :: rest =>
      b <- py_in_range low high item ;;
      range_find_loop low high rest
        (if b then list_in_range ++ [item] else list_in_range)
  end.

Definition range_find (self : LinkedBST A) (low high : A) : result (list A) :=
  range_find_loop low high (inorder self) [].

(** [rebalance]: the helper [recurse] calls itself on two slices of [lst],
    each shorter than [lst]; [fuel] bounds the depth of these calls and
    [rebalance] supplies the length of the list, which is enough. *)
Fixpoint rebalance_recurse (fuel : nat) (lst : list A) : M A unit := fun self =>
  match lst with
  | [] => (Return tt, self)
  | _ :: _ =>
      match fuel with
      | O => (Raise OutOfFuel, self)
      | S fuel' =>
          let mid_idx := (length lst / 2)%nat in
          match nth_error lst mid_idx with
          | None => (Raise IndexError, self)
          | Some x =>
              match add x self with
              | (Raise e, self1) => (Raise e, self1)
              | (Return _, self1) =>
                  match rebalance_recurse fuel' (firstn mid_idx lst) self1 with
                  | (Raise e, self2) => (Raise e, self2)
                  | (Return _, self2) =>
                      rebalance_recurse fuel' (skipn (mid_idx + 1) lst) self2
                  end
              end
          end
      end
  end.

Definition rebalance : M A unit := fun self =>
  let initial := inorder self in
  let (_, self0) := clear self in
  rebalance_recurse (length initial) initial self0.

(** [successor]: the first loop. [old_root] is set when it ends. *)
Fixpoint successor_loop2 (item : A) (root : BSTNode A) (old_root : A)
  : result (option A) :=
  match root with
  | Absent => Raise AttributeError
  | Node l d _ =>
      if py_gt item d then Return (Some old_root)
      else if is_None l then Return (Some d)
      else successor_loop2 item l d
  end.

Fixpoint successor_loop1 (item : A) (root : BSTNode A) : result (option A) :=
  match root with
  | Absent => Raise AttributeError
  | Node _ d r =>
      if py_ge item d then
        if is_None r then Return None
        else successor_loop1 item r
      else successor_loop2 item root d
  end.

Definition successor (self : LinkedBST A) (item : A) : result (option A) :=
  successor_loop1 item (_root self).

(** Python's [max] of a list: the first of the greatest elements. *)
Definition py_max (xs : list A) : result A :=
  match xs with
  | [] => Raise ValueError
  | x :: rest => Return (fold_left (fun m y => if py_gt y m then y else m) rest x)
  end.

(** [predecessor]: the loop, which gives the list [predecessors]. *)
Fixpoint predecessor_loop (item : A) (root : BSTNode A) (predecessors : list A)
  : result (list A) :=
  match root with
  | Absent => Raise AttributeError
  | Node l d r =>
      if py_lt item d then
        if is_None l then Return predecessors
        else predecessor_loop item l predecessors
      else if py_gt item d then
        if is_None r then Return (predecessors ++ [d])
        else predecessor_loop item r (predecessors ++ [d])
      else if py_eq item d then
        if is_None l then Return predecessors
        else predecessor_loop item l predecessors
      else Return predecessors
  end.

Definition predecessor (self : LinkedBST A) (item : A) : result (option A) :=
  predecessors <- predecessor_loop item (_root self) [] ;;
  if (0 <? length predecessors)%nat then
    m <- py_max predecessors ;; Return (Some m)
  else Return None.

(** Modelled from the spec: [AbstractCollection.__init__]
    (abstractcollection.py) is missing; the specification loads the initial
    sequence by repeated insertion, starting from no item.  [init_empty] is
    the object before the first insertion. *)
Definition init_empty : LinkedBST A := mkLinkedBST Absent 0.

(** The loop of the constructor over [sourceCollection]. *)
Fixpoint add_all (items : list A) : M A unit := fun self =>
  match items with
  | [] => (Return tt, self)
  | item :: rest =>
      match add item self with
      | (Return _, self') => add_all rest self'
      | (Raise e, self') => (Raise e, self')
      end
  end.

Definition LinkedBST_init (sourceCollection : list A) : result unit * LinkedBST A :=
  add_all sourceCollection init_empty.

End Methods.

(** ** [__str__] *)

Section Rendering.

Context {A : Type}.

(** Python's [str] on the items. *)
Variable str : A -> String.string.

(** The line feed. *)
Definition newline : String.string :=
  String.String (Ascii.ascii_of_nat 10) String.EmptyString.

(** [s * n] on a string. *)
Fixpoint repeat_string (s : String.string) (n : nat) : String.string :=
  match n with
  | O => String.EmptyString
  | S n' => String.append s (repeat_string s n')
  end.

(** [__str__]: the helper [recurse]. *)
Fixpoint str_recurse (node : BSTNode A) (level : nat) : String.string :=
  match node with
  | Absent => String.EmptyString
  | Node l d r =>
      String.append (str_recurse r (level + 1))
        (String.append (repeat_string "| "%string level)
           (String.append (String.append (str d) newline)
              (str_recurse l (level + 1))))
  end.

Definition LinkedBST_str (self : LinkedBST A) : String.string :=
  str_recurse (_root self) 0.

End Rendering.

(** * The vocabulary of the properties *)

Section Vocabulary.

Context {A : Type} {C : Comparable A}.

(** [x] is strictly below [y]. *)
Definition lt (x y : A) : Prop := py_lt x y = true.

(** [x] is not above [y]. *)
Definition le (x y : A) : Prop := py_lt y x = false.

(** The tree that [add] leaves, as a function of the tree it finds. *)
Fixpoint insert (item : A) (node : BSTNode A) : BSTNode A :=
  match node with
  | Absent => Node Absent item Absent
  | Node l d r =>
      if py_lt item d then Node (insert item l) d r
      else Node l d (insert item r)
  end.

(** The order invariant: no item of a left subtree is above the item of the
    node, no item of a right subtree is below it. *)
Fixpoint bst (node : BSTNode A) : Prop :=
  match node with
  | Absent => True
  | Node l d r =>
      bst l /\ bst r /\
      Forall (fun x => le x d) (inorder_recurse l) /\
      Forall (fun x => le d x) (inorder_recurse r)
  end.

(** The counter invariant. *)
Definition size_ok (self : LinkedBST A) : Prop :=
  _size self = Z.of_nat (count (_root self)).

(** The invariants of the data model together. *)
Definition well_formed (self : LinkedBST A) : Prop :=
  bst (_root self) /\ size_ok self.

(** The items in pre-order: a node, its left subtree, its right subtree. *)
Fixpoint preorder_recurse (node : BSTNode A) : list A :=
  match node with
  | Absent => []
  | Node l d r => d :: preorder_recurse l ++ preorder_recurse r
  end.

(** The number of nodes under the links of a stack. *)
Definition count_stack (stack : list (BSTNode A)) : nat :=
  fold_right (fun node n => (count node + n)%nat) O stack.

(** The tree after adding the items one after the other. *)
Definition insert_all (items : list A) (t : BSTNode A) : BSTNode A :=
  fold_left (fun t item => insert item t) items t.

(** The items in the order in which [rebalance] adds them. *)
Fixpoint rebalance_order (fuel : nat) (lst : list A) : list A :=
  match lst, fuel with
  | [], _ => []
  | _ :: _, O => []
  | _ :: _, S fuel' =>
      let mid_idx := (length lst / 2)%nat in
      match nth_error lst mid_idx with
      | None => []
      | Some x =>
          x :: rebalance_order fuel' (firstn mid_idx lst)
            ++ rebalance_order fuel' (skipn (mid_idx + 1) lst)
      end
  end.

(** The tree that takes the middle item of the list as its root and is built
    the same way on both sides. *)
Fixpoint balanced (fuel : nat) (lst : list A) : BSTNode A :=
  match lst, fuel with
  | [], _ => Absent
  | _ :: _, O => Absent
  | _ :: _, S fuel' =>
      let mid_idx := (length lst / 2)%nat in
      match nth_error lst mid_idx with
      | None => Absent
      | Some x =>
          Node (balanced fuel' (firstn mid_idx lst)) x
               (balanced fuel' (skipn (mid_idx + 1) lst))
      end
  end.

(** [o] is the greatest of the [items] strictly below [item], or nothing
    when no item is strictly below [item]. *)
Definition is_predecessor (items : list A) (item : A) (o : option A) : Prop :=
  match o with
  | Some p => In p items /\ lt p item /\ forall x, In x items -> lt x item -> le x p
  | None => forall x, In x items -> ~ lt x item
  end.

(** [o] is the least of the [items] strictly above [item], or nothing
    when no item is strictly above [item]. *)
Definition is_successor (items : list A) (item : A) (o : option A) : Prop :=
  match o with
  | Some p => In p items /\ lt item p /\ forall x, In x items -> lt item x -> le p x
  | None => forall x, In x items -> ~ lt item x
  end.

(** The object after any sequence of calls of its mutating methods, whatever
    their outcomes.  [replace] overwrites an item in place and can break
    the order invariant, so it is counted only when [with_replace] is set. *)
Inductive reachable (with_replace : bool) : LinkedBST A -> Prop :=
| reach_init : reachable with_replace init_empty
| reach_add (item : A) (self : LinkedBST A) :
    reachable with_replace self -> reachable with_replace (snd (add item self))
| reach_remove (item : A) (self : LinkedBST A) :
    reachable with_replace self -> reachable with_replace (snd (remove item self))
| reach_replace (item new_item : A) (self : LinkedBST A) :
    with_replace = true ->
    reachable with_replace self ->
    reachable with_replace (snd (replace item new_item self))
| reach_clear (self : LinkedBST A) :
    reachable with_replace self -> reachable with_replace (snd (clear self))
| reach_rebalance (self : LinkedBST A) :
    reachable with_replace self -> reachable with_replace (snd (rebalance self)).

(** Sequences of insertions and removals. *)
Inductive operation : Type :=
| Insert (item : A)
| Delete (item : A).

(** The operations in turn; the run stops at the first one that raises. *)
Fixpoint run (ops : list operation) : M A unit := fun self =>
  match ops with
  | [] => (Return tt, self)
  | Insert item :: rest =>
      match add item self with
      | (Return _, self') => run rest self'
      | (Raise e, self') => (Raise e, self')
      end
  | Delete item :: rest =>
      match remove item self with
      | (Return _, self') => run rest self'
      | (Raise e, self') => (Raise e, self')
      end
  end.

(** The tree in which every node has a right child only. *)
Definition chain (items : list A) : BSTNode A :=
  fold_right (fun item t => Node Absent item t) Absent items.

(** The nodes from right to left, each with its depth below [level]. *)
Fixpoint rows (node : BSTNode A) (level : nat) : list (nat * A) :=
  match node with
  | Absent => []
  | Node l d r => rows r (level + 1) ++ (level, d) :: rows l (level + 1)
  end.

(** One line per row: the bars of its depth, the item, a line feed. *)
Definition render (str : A -> String.string) (rws : list (nat * A)) : String.string :=
  fold_right
    (fun row rest =>
       String.append (repeat_string "| "%string (fst row))
         (String.append (String.append (str (snd row)) newline) rest))
    String.EmptyString rws.

End Vocabulary.

(** [LinkedBST(sourceCollection)]: the object the constructor leaves. *)
Definition tree_of {A : Type} {C : Comparable A} (items : list A) : LinkedBST A :=
  snd (LinkedBST_init items).

(** [low <= x <= high], with Python's operators. *)
Definition between {A : Type} {C : Comparable A} (low high x : A) : bool :=
  py_ge x low && py_ge high x.

(** * Lemmas

    ** The order on the items *)

Section Order.

Context {A : Type} {C : Comparable A} {T : TotalOrder A}.

Lemma le_refl (x : A) : le x x.
Proof. apply py_lt_irrefl. Qed.

Lemma lt_le (x y : A) : lt x y -> le x y.
Proof.
  unfold lt, le. intros Hxy.
  destruct (py_lt y x) eqn:Hyx; [|reflexivity].
  pose proof (py_lt_trans _ _ _ Hxy Hyx) as Hxx.
  rewrite py_lt_irrefl in Hxx. discriminate.
Qed.

Lemma le_lt_trans (x y z : A) : le x y -> lt y z -> lt x z.
Proof.
  unfold lt, le. intros Hxy Hyz.
  destruct (py_lt x y) eqn:E.
  - eapply py_lt_trans; eassumption.
  - rewrite (py_lt_total _ _ E Hxy). exact Hyz.
Qed.

Lemma lt_le_trans (x y z : A) : lt x y -> le y z -> lt x z.
Proof.
  unfold lt, le. intros Hxy Hyz.
  destruct (py_lt y z) eqn:E.
  - eapply py_lt_trans; eassumption.
  - rewrite <- (py_lt_total _ _ E Hyz). exact Hxy.
Qed.

Lemma le_trans (x y z : A) : le x y -> le y z -> le x z.
Proof.
  intros Hxy Hyz. unfold le.
  destruct (py_lt z x) eqn:E; [|reflexivity].
  pose proof (le_lt_trans Hyz E) as Hyx.
  unfold le in Hxy. unfold lt in Hyx. congruence.
Qed.

Lemma le_antisym (x y : A) : le x y -> le y x -> x = y.
Proof. unfold le. intros Hxy Hyx. apply py_lt_total; assumption. Qed.

Lemma lt_irrefl (x : A) : ~ lt x x.
Proof. unfold lt. rewrite py_lt_irrefl. discriminate. Qed.

Lemma lt_not_le (x y : A) : lt x y -> ~ le y x.
Proof. unfold lt, le. congruence. Qed.

Lemma le_or_lt (x y : A) : le x y \/ lt y x.
Proof. unfold le, lt. destruct (py_lt y x); auto. Qed.

Lemma le_neq_lt (x y : A) : le x y -> x <> y -> lt x y.
Proof.
  unfold le, lt. intros Hxy Hne.
  destruct (py_lt x y) eqn:E; [reflexivity|].
  exfalso. apply Hne. apply py_lt_total; assumption.
Qed.

Lemma py_eq_refl (x : A) : py_eq x x = true.
Proof. apply py_eq_true. reflexivity. Qed.

Lemma py_eq_sym (x y : A) : py_eq x y = py_eq y x.
Proof.
  destruct (py_eq x y) eqn:E1, (py_eq y x) eqn:E2; try reflexivity.
  - apply py_eq_true in E1. subst. rewrite py_eq_refl in E2. discriminate.
  - apply py_eq_true in E2. subst. rewrite py_eq_refl in E1. discriminate.
Qed.

Lemma py_eq_false_neq (x y : A) : py_eq x y = false -> x <> y.
Proof. intros E Heq. subst. rewrite py_eq_refl in E. discriminate. Qed.

(** *** Sorted lists *)

Lemma sorted_app (R : A -> A -> Prop) (l1 l2 : list A) :
  StronglySorted R (l1 ++ l2) <->
  StronglySorted R l1 /\ StronglySorted R l2 /\
  Forall (fun x => Forall (R x) l2) l1.
Proof.
  induction l1 as [|a l1 IH]; simpl.
  - split; [intros Hs; repeat split; auto; constructor | intros (_ & Hs & _); exact Hs].
  - split.
    + intros Hs. inversion Hs as [|? ? Hs' Hall]; subst.
      apply IH in Hs'. destruct Hs' as (H1 & H2 & H3).
      apply Forall_app in Hall. destruct Hall as [Ha1 Ha2].
      repeat split; auto; constructor; auto.
    + intros (H1 & H2 & H3).
      inversion H1 as [|? ? H1' Ha1]; subst.
      inversion H3 as [|? ? Ha2 H3']; subst.
      constructor.
      * apply IH. auto.
      * apply Forall_app. auto.
Qed.

Lemma sorted_remove_middle (R : A -> A -> Prop) (l1 l2 : list A) (a : A) :
  StronglySorted R (l1 ++ a :: l2) -> StronglySorted R (l1 ++ l2).
Proof.
  rewrite !sorted_app. intros (H1 & H2 & H3).
  inversion H2; subst. repeat split; auto.
  eapply Forall_impl; [|exact H3].
  intros x Hx. inversion Hx; auto.
Qed.

(** Two sorted lists with the same items are the same list. *)
Lemma sorted_perm_eq (l1 l2 : list A) :
  StronglySorted le l1 -> StronglySorted le l2 -> Permutation l1 l2 -> l1 = l2.
Proof.
  revert l2. induction l1 as [|a l1 IH]; intros l2 H1 H2 Hp.
  - apply Permutation_nil in Hp. auto.
  - destruct l2 as [|b l2].
    + apply Permutation_sym, Permutation_nil in Hp. discriminate.
    + inversion H1 as [|? ? H1' Ha]; subst.
      inversion H2 as [|? ? H2' Hb]; subst.
      assert (a = b) as ->.
      { assert (In b (a :: l1)) as Hb1
          by (eapply Permutation_in; [apply Permutation_sym; exact Hp | left; reflexivity]).
        assert (In a (b :: l2)) as Ha2
          by (eapply Permutation_in; [exact Hp | left; reflexivity]).
        destruct Hb1 as [|Hb1]; [assumption|].
        destruct Ha2 as [|Ha2]; [congruence|].
        rewrite Forall_forall in Ha, Hb.
        apply le_antisym; auto. }
      f_equal. apply IH; auto.
      eapply Permutation_cons_inv; exact Hp.
Qed.

Lemma sorted_le_nodup_lt (l : list A) :
  StronglySorted le l -> NoDup l -> StronglySorted lt l.
Proof.
  induction 1 as [|a l Hs IH Ha]; intros Hnd; constructor.
  - apply IH. inversion Hnd; assumption.
  - inversion Hnd as [|? ? Hnotin _]; subst.
    rewrite Forall_forall in *. intros x Hx.
    apply le_neq_lt; auto. intros ->. contradiction.
Qed.

Lemma sorted_lt_le (l : list A) : StronglySorted lt l -> StronglySorted le l.
Proof.
  induction 1; constructor; auto.
  eapply Forall_impl; [|eassumption]. intros; apply lt_le; assumption.
Qed.

End Order.

(** ** Invariants of the data model *)

Section Invariants.

Context {A : Type} {C : Comparable A}.

Lemma inorder_length (t : BSTNode A) : length (inorder_recurse t) = count t.
Proof.
  induction t as [|l IHl d r IHr]; simpl; [reflexivity|].
  rewrite length_app. simpl. lia.
Qed.

Lemma is_None_true (t : BSTNode A) : is_None t = true <-> t = Absent.
Proof. destruct t; simpl; split; congruence. Qed.

Lemma count_zero (t : BSTNode A) : count t = O <-> t = Absent.
Proof. destruct t; simpl; split; congruence. Qed.

Lemma size_ok_empty (self : LinkedBST A) :
  size_ok self -> (isEmpty self = true <-> _root self = Absent).
Proof.
  unfold size_ok, isEmpty. intros Hs. rewrite Z.eqb_eq, Hs, <- count_zero. lia.
Qed.

(** *** [add] *)

Lemma add_recurse_insert (item : A) (t : BSTNode A) :
  t <> Absent -> add_recurse item t = Return (insert item t).
Proof.
  induction t as [|l IHl d r IHr]; intros Hne; [congruence|].
  simpl. destruct (py_lt item d).
  - destruct l as [|ll ld lr]; simpl; [reflexivity|].
    simpl in IHl. rewrite IHl by congruence. reflexivity.
  - destruct r as [|rl rd rr]; simpl; [reflexivity|].
    simpl in IHr. rewrite IHr by congruence. reflexivity.
Qed.

Lemma add_insert (item : A) (self : LinkedBST A) :
  size_ok self ->
  add item self = (Return tt, mkLinkedBST (insert item (_root self)) (_size self + 1)).
Proof.
  intros Hs. unfold add.
  destruct (isEmpty self) eqn:E.
  - apply (size_ok_empty Hs) in E. rewrite E. reflexivity.
  - rewrite add_recurse_insert; [reflexivity|].
    intros Hr. apply (size_ok_empty Hs) in Hr. congruence.
Qed.

Lemma insert_count (item : A) (t : BSTNode A) : count (insert item t) = S (count t).
Proof.
  induction t as [|l IHl d r IHr]; simpl; [reflexivity|].
  destruct (py_lt item d); simpl; lia.
Qed.

Lemma insert_perm (item : A) (t : BSTNode A) :
  Permutation (inorder_recurse (insert item t)) (item :: inorder_recurse t).
Proof.
  induction t as [|l IHl d r IHr]; simpl; [reflexivity|].
  destruct (py_lt item d); simpl.
  - rewrite IHl. reflexivity.
  - rewrite IHr. symmetry.
    replace (inorder_recurse l ++ d :: item :: inorder_recurse r)
      with ((inorder_recurse l ++ [d]) ++ item :: inorder_recurse r)
      by (rewrite <- app_assoc; reflexivity).
    apply Permutation_cons_app. rewrite <- app_assoc. reflexivity.
Qed.

Lemma insert_not_Absent (item : A) (t : BSTNode A) : insert item t <> Absent.
Proof. destruct t; simpl; [|destruct (py_lt item data)]; congruence. Qed.

(** *** [remove] *)

Lemma lift_max_inorder (l : BSTNode A) (d : A) (r : BSTNode A) :
  inorder_recurse (Node l d r) =
  inorder_recurse (snd (lift_max l d r)) ++ [fst (lift_max l d r)].
Proof.
  revert l d. induction r as [|rl IHl rd rr IHr]; intros l d; simpl.
  - reflexivity.
  - specialize (IHr rl rd). simpl in IHr.
    destruct (lift_max rl rd rr) as [m r']. simpl in *.
    rewrite IHr, <- app_assoc. reflexivity.
Qed.

Lemma lift_max_count (l : BSTNode A) (d : A) (r : BSTNode A) :
  S (count (snd (lift_max l d r))) = count (Node l d r).
Proof.
  rewrite <- !inorder_length, (lift_max_inorder l d r), length_app. simpl. lia.
Qed.

Lemma unlink_inorder (l : BSTNode A) (d : A) (r : BSTNode A) :
  inorder_recurse (unlink l d r) = inorder_recurse l ++ inorder_recurse r.
Proof.
  destruct l as [|ll ld lr], r as [|rl rd rr]; simpl;
    try rewrite app_nil_r; try reflexivity.
  pose proof (lift_max_inorder ll ld lr) as Hm. simpl in Hm.
  destruct (lift_max ll ld lr) as [m l']. simpl in *.
  rewrite Hm, <- app_assoc. reflexivity.
Qed.

(** The located node leaves the in-order sequence, and nothing else moves. *)
Lemma remove_locate_inorder (item v : A) (t t' : BSTNode A) :
  remove_locate item t = Some (v, t') ->
  exists xs ys, inorder_recurse t = xs ++ v :: ys /\ inorder_recurse t' = xs ++ ys.
Proof.
  revert t'. induction t as [|l IHl d r IHr]; intros t' Hr; simpl in Hr; [discriminate|].
  destruct (py_eq d item).
  - inversion Hr; subst. exists (inorder_recurse l), (inorder_recurse r).
    simpl. rewrite unlink_inorder. auto.
  - destruct (py_gt d item).
    + destruct (remove_locate item l) as [[v0 l']|]; [|discriminate].
      inversion Hr; subst.
      destruct (IHl _ eq_refl) as (xs & ys & H1 & H2).
      exists xs, (ys ++ d :: inorder_recurse r). simpl.
      rewrite H1, H2, <- !app_assoc. auto.
    + destruct (remove_locate item r) as [[v0 r']|]; [|discriminate].
      inversion Hr; subst.
      destruct (IHr _ eq_refl) as (xs & ys & H1 & H2).
      exists (inorder_recurse l ++ d :: xs), ys. simpl.
      rewrite H1, H2, <- !app_assoc. auto.
Qed.

Lemma remove_locate_count (item v : A) (t t' : BSTNode A) :
  remove_locate item t = Some (v, t') -> count t = S (count t').
Proof.
  intros Hr. apply remove_locate_inorder in Hr.
  destruct Hr as (xs & ys & H1 & H2).
  rewrite <- !inorder_length, H1, H2, !length_app. simpl. lia.
Qed.

(** *** [replace] *)

Lemma replace_probe_count (item new_item old : A) (t t' : BSTNode A) :
  replace_probe item new_item t = Some (old, t') -> count t' = count t.
Proof.
  revert t'. induction t as [|l IHl d r IHr]; intros t' Hr; simpl in Hr; [discriminate|].
  destruct (py_eq d item).
  - inversion Hr; subst. reflexivity.
  - destruct (py_gt d item).
    + destruct (replace_probe item new_item l) as [[o l']|]; [|discriminate].
      inversion Hr; subst. simpl. rewrite (IHl _ eq_refl). reflexivity.
    + destruct (replace_probe item new_item r) as [[o r']|]; [|discriminate].
      inversion Hr; subst. simpl. rewrite (IHr _ eq_refl). reflexivity.
Qed.

Context {T : TotalOrder A}.

(** *** The order invariant and the in-order sequence *)

Lemma bst_sorted (t : BSTNode A) :
  bst t <-> StronglySorted le (inorder_recurse t).
Proof.
  induction t as [|l IHl d r IHr]; simpl.
  - split; [constructor | auto].
  - rewrite sorted_app. split.
    + intros (Hl & Hr & Hfl & Hfr). repeat split.
      * apply IHl; assumption.
      * constructor; [apply IHr; assumption | assumption].
      * eapply Forall_impl; [|exact Hfl]. intros x Hx.
        constructor; [assumption|].
        eapply Forall_impl; [|exact Hfr]. intros y Hy. exact (le_trans Hx Hy).
    + intros (Hl & Hr & Hf). inversion Hr; subst. repeat split.
      * apply IHl; assumption.
      * apply IHr; assumption.
      * eapply Forall_impl; [|exact Hf]. intros x Hx. inversion Hx; assumption.
      * assumption.
Qed.

Lemma insert_bst (item : A) (t : BSTNode A) : bst t -> bst (insert item t).
Proof.
  induction t as [|l IHl d r IHr]; simpl.
  - intros _. repeat split; constructor.
  - intros (Hl & Hr & Hfl & Hfr).
    destruct (py_lt item d) eqn:E; simpl; repeat split; auto.
    + eapply Permutation_Forall; [symmetry; apply insert_perm|].
      constructor; [apply lt_le; exact E | assumption].
    + eapply Permutation_Forall; [symmetry; apply insert_perm|].
      constructor; [exact E | assumption].
Qed.

Lemma remove_locate_bst (item v : A) (t t' : BSTNode A) :
  remove_locate item t = Some (v, t') -> bst t -> bst t'.
Proof.
  intros Hr. apply remove_locate_inorder in Hr.
  destruct Hr as (xs & ys & H1 & H2).
  rewrite !bst_sorted, H1, H2. apply sorted_remove_middle.
Qed.

(** *** [find] *)

Lemma find_recurse_Some (item v : A) (t : BSTNode A) :
  find_recurse item t = Some v -> v = item /\ In v (inorder_recurse t).
Proof.
  induction t as [|l IHl d r IHr]; simpl; [discriminate|].
  destruct (py_eq item d) eqn:E.
  - intros Hv. inversion Hv; subst. apply py_eq_true in E. subst.
    split; [reflexivity|]. apply in_or_app. right. left. reflexivity.
  - destruct (py_lt item d).
    + intros Hv. destruct (IHl Hv) as [-> Hin]. split; [reflexivity|].
      apply in_or_app. left. assumption.
    + intros Hv. destruct (IHr Hv) as [-> Hin]. split; [reflexivity|].
      apply in_or_app. right. right. assumption.
Qed.

Lemma find_recurse_In (item : A) (t : BSTNode A) :
  bst t -> In item (inorder_recurse t) -> find_recurse item t = Some item.
Proof.
  induction t as [|l IHl d r IHr]; simpl; [contradiction|].
  intros (Hl & Hr & Hfl & Hfr) Hin.
  destruct (py_eq item d) eqn:E.
  - apply py_eq_true in E. subst. reflexivity.
  - apply py_eq_false_neq in E.
    rewrite Forall_forall in Hfl, Hfr.
    apply in_app_or in Hin. destruct Hin as [Hin|[Hin|Hin]].
    + assert (py_lt item d = true) as ->
        by (apply le_neq_lt; [apply Hfl; assumption | assumption]).
      apply IHl; assumption.
    + congruence.
    + assert (py_lt item d = false) as -> by (apply Hfr; assumption).
      apply IHr; assumption.
Qed.

(** [remove] locates the node that [find] finds. *)
Lemma remove_locate_find (item : A) (t : BSTNode A) :
  match find_recurse item t with
  | Some v => exists t', remove_locate item t = Some (v, t')
  | None => remove_locate item t = None
  end.
Proof.
  induction t as [|l IHl d r IHr]; simpl; [reflexivity|].
  rewrite (py_eq_sym d item), py_gt_lt.
  destruct (py_eq item d); [eexists; reflexivity|].
  destruct (py_lt item d).
  - destruct (find_recurse item l).
    + destruct IHl as [l' ->]. eexists; reflexivity.
    + rewrite IHl. reflexivity.
  - destruct (find_recurse item r).
    + destruct IHr as [r' ->]. eexists; reflexivity.
    + rewrite IHr. reflexivity.
Qed.

End Invariants.

(** ** What the methods do to a well-formed object *)

Section Effects.

Context {A : Type} {C : Comparable A}.

(** *** [__iter__] *)

Lemma preorder_length (t : BSTNode A) : length (preorder_recurse t) = count t.
Proof.
  induction t as [|l IHl d r IHr]; simpl; [reflexivity|].
  rewrite length_app. lia.
Qed.

Lemma iter_loop_preorder (fuel : nat) :
  forall stack : list (BSTNode A),
    Forall (fun node => node <> Absent) stack ->
    (count_stack stack <= fuel)%nat ->
    iter_loop fuel stack = Return (flat_map preorder_recurse stack).
Proof.
  induction fuel as [|fuel IH]; intros stack Hne Hc.
  - destruct stack as [|node stack]; [reflexivity|].
    inversion Hne; subst. destruct node; [congruence|]. simpl in Hc. lia.
  - destruct stack as [|node stack]; [reflexivity|].
    inversion Hne as [|? ? Hn Hst]; subst.
    destruct node as [|l d r]; [congruence|].
    simpl in Hc. simpl. rewrite IH.
    + simpl. f_equal. f_equal. rewrite <- app_assoc.
      destruct l, r; simpl; rewrite ?app_nil_r; reflexivity.
    + destruct l, r; simpl; unfold push; repeat constructor; auto; congruence.
    + destruct l, r; simpl in *; lia.
Qed.

Lemma iter_preorder (self : LinkedBST A) :
  size_ok self -> iter self = Return (preorder_recurse (_root self)).
Proof.
  intros Hs. unfold iter.
  destruct (isEmpty self) eqn:E; simpl.
  - apply (size_ok_empty Hs) in E. rewrite E. reflexivity.
  - rewrite iter_loop_preorder.
    + simpl. rewrite app_nil_r. reflexivity.
    + constructor; [|constructor]. intros Hr.
      apply (size_ok_empty Hs) in Hr. congruence.
    + simpl. lia.
Qed.

(** *** [add], repeated *)

Lemma insert_all_app (xs ys : list A) (t : BSTNode A) :
  insert_all (xs ++ ys) t = insert_all ys (insert_all xs t).
Proof. apply fold_left_app. Qed.

Lemma insert_all_perm (items : list A) :
  forall t, Permutation (inorder_recurse (insert_all items t))
                        (inorder_recurse t ++ items).
Proof.
  induction items as [|x items IH]; intros t; simpl.
  - rewrite app_nil_r. reflexivity.
  - rewrite IH, insert_perm. simpl.
    apply Permutation_cons_app. reflexivity.
Qed.

Lemma insert_all_count (items : list A) :
  forall t, count (insert_all items t) = (count t + length items)%nat.
Proof.
  induction items as [|x items IH]; intros t; simpl; [lia|].
  rewrite IH, insert_count. lia.
Qed.

Lemma add_all_insert_all (items : list A) :
  forall self, size_ok self ->
    add_all items self =
    (Return tt, mkLinkedBST (insert_all items (_root self))
                            (_size self + Z.of_nat (length items))).
Proof.
  induction items as [|x items IH]; intros self Hs; simpl.
  - destruct self; simpl. rewrite Z.add_0_r. reflexivity.
  - rewrite (add_insert x Hs). rewrite IH.
    + simpl. f_equal. f_equal. lia.
    + unfold size_ok. simpl. rewrite insert_count, Hs. lia.
Qed.

(** *** [rebalance] *)

Lemma list_eq_dec_nil (lst : list A) : {lst = []} + {lst <> []}.
Proof. destruct lst; [left; reflexivity | right; discriminate]. Qed.

Lemma mid_split (lst : list A) :
  lst <> [] ->
  exists x, nth_error lst (length lst / 2) = Some x /\
            lst = firstn (length lst / 2) lst ++ x :: skipn (length lst / 2 + 1) lst.
Proof.
  intros Hne.
  assert (length lst / 2 < length lst)%nat as Hlt.
  { destruct lst; [congruence|]. apply Nat.div_lt; simpl; lia. }
  destruct (nth_error lst (length lst / 2)) as [x|] eqn:E.
  - exists x. split; [reflexivity|].
    destruct (nth_error_split _ _ E) as (l1 & l2 & Hl & Hlen).
    rewrite Hl at 1.
    assert (firstn (length lst / 2) lst = l1) as ->.
    { rewrite Hl at 2. rewrite <- Hlen. rewrite firstn_app, firstn_all, Nat.sub_diag.
      simpl. apply app_nil_r. }
    assert (skipn (length lst / 2 + 1) lst = l2) as ->.
    { rewrite Hl at 2. rewrite <- Hlen.
      replace (length l1 + 1)%nat with (length (l1 ++ [x]))
        by (rewrite length_app; reflexivity).
      replace (l1 ++ x :: l2) with ((l1 ++ [x]) ++ l2)
        by (rewrite <- app_assoc; reflexivity).
      rewrite skipn_app, skipn_all, Nat.sub_diag. reflexivity. }
    reflexivity.
  - apply nth_error_None in E. lia.
Qed.

Lemma rebalance_order_S (fuel : nat) (lst : list A) :
  lst <> [] ->
  rebalance_order (S fuel) lst =
  match nth_error lst (length lst / 2) with
  | None => []
  | Some x =>
      x :: rebalance_order fuel (firstn (length lst / 2) lst)
        ++ rebalance_order fuel (skipn (length lst / 2 + 1) lst)
  end.
Proof. destruct lst; [congruence | reflexivity]. Qed.

Lemma rebalance_recurse_S (fuel : nat) (lst : list A) (self : LinkedBST A) :
  lst <> [] ->
  rebalance_recurse (S fuel) lst self =
  match nth_error lst (length lst / 2) with
  | None => (Raise IndexError, self)
  | Some x =>
      match add x self with
      | (Raise e, self1) => (Raise e, self1)
      | (Return _, self1) =>
          match rebalance_recurse fuel (firstn (length lst / 2) lst) self1 with
          | (Raise e, self2) => (Raise e, self2)
          | (Return _, self2) =>
              rebalance_recurse fuel (skipn (length lst / 2 + 1) lst) self2
          end
      end
  end.
Proof. destruct lst; [congruence | reflexivity]. Qed.

Lemma rebalance_order_perm (fuel : nat) :
  forall lst : list A,
    (length lst <= fuel)%nat -> Permutation (rebalance_order fuel lst) lst.
Proof.
  induction fuel as [|fuel IH]; intros lst Hlen.
  - destruct lst; [reflexivity | simpl in Hlen; lia].
  - destruct (list_eq_dec_nil lst) as [->|Hne]; [reflexivity|].
    destruct (mid_split Hne) as (x & Hx & Hsplit).
    rewrite (rebalance_order_S fuel Hne), Hx.
    remember (firstn (length lst / 2) lst) as L eqn:HL.
    remember (skipn (length lst / 2 + 1) lst) as R eqn:HR.
    assert (length lst = length L + S (length R))%nat as Hl
      by (rewrite Hsplit, length_app; reflexivity).
    rewrite Hsplit.
    apply Permutation_cons_app. apply Permutation_app; apply IH; lia.
Qed.

Lemma rebalance_recurse_order (fuel : nat) :
  forall (lst : list A) (self : LinkedBST A),
    (length lst <= fuel)%nat -> size_ok self ->
    rebalance_recurse fuel lst self =
    (Return tt, mkLinkedBST (insert_all (rebalance_order fuel lst) (_root self))
                            (_size self + Z.of_nat (length (rebalance_order fuel lst)))).
Proof.
  induction fuel as [|fuel IH]; intros lst self Hlen Hs.
  - destruct lst; [|simpl in Hlen; lia]. simpl.
    destruct self; simpl. rewrite Z.add_0_r. reflexivity.
  - destruct (list_eq_dec_nil lst) as [->|Hne].
    { simpl. destruct self; simpl. rewrite Z.add_0_r. reflexivity. }
    destruct (mid_split Hne) as (x & Hx & Hsplit).
    rewrite (rebalance_recurse_S fuel self Hne), (rebalance_order_S fuel Hne), Hx.
    remember (firstn (length lst / 2) lst) as L eqn:HL.
    remember (skipn (length lst / 2 + 1) lst) as R eqn:HR.
    assert (length lst = length L + S (length R))%nat as Hl
      by (rewrite Hsplit, length_app; reflexivity).
    rewrite (add_insert x Hs).
    rewrite IH; [|lia|unfold size_ok; simpl; rewrite insert_count, Hs; lia].
    rewrite IH; [|lia|].
    + simpl. rewrite insert_all_app. f_equal. f_equal.
      rewrite length_app. lia.
    + unfold size_ok. simpl. rewrite insert_all_count, insert_count, Hs. lia.
Qed.

Lemma rebalance_insert_all (self : LinkedBST A) :
  rebalance self =
  (Return tt,
   mkLinkedBST (insert_all (rebalance_order (length (inorder self)) (inorder self)) Absent)
               (Z.of_nat (length (inorder self)))).
Proof.
  unfold rebalance. simpl.
  rewrite rebalance_recurse_order; [|lia|reflexivity].
  simpl. f_equal. f_equal.
  apply Nat2Z.inj_iff, Permutation_length, rebalance_order_perm. lia.
Qed.

Lemma rebalance_perm (self : LinkedBST A) :
  Permutation (inorder (snd (rebalance self))) (inorder self).
Proof.
  rewrite rebalance_insert_all. unfold inorder at 1. simpl.
  rewrite insert_all_perm. simpl. apply rebalance_order_perm. lia.
Qed.

Lemma rebalance_size_ok (self : LinkedBST A) : size_ok (snd (rebalance self)).
Proof.
  rewrite rebalance_insert_all. unfold size_ok. simpl.
  rewrite insert_all_count. simpl. f_equal.
  symmetry. apply Permutation_length, rebalance_order_perm. lia.
Qed.

Context {T : TotalOrder A}.

Lemma insert_all_bst (items : list A) :
  forall t, bst t -> bst (insert_all items t).
Proof.
  induction items as [|x items IH]; intros t Ht; simpl; [assumption|].
  apply IH, insert_bst, Ht.
Qed.

Lemma rebalance_bst (self : LinkedBST A) : bst (_root (snd (rebalance self))).
Proof.
  rewrite rebalance_insert_all. simpl. apply insert_all_bst. exact I.
Qed.

(** *** [remove] *)

Lemma remove_effect (item : A) (self : LinkedBST A) :
  size_ok self ->
  match find self item with
  | None => remove item self = (Raise KeyError, self)
  | Some v =>
      exists t', remove_locate item (_root self) = Some (v, t') /\
                 remove item self = (Return (Some v), mkLinkedBST t' (_size self - 1))
  end.
Proof.
  intros Hs. unfold remove, contains.
  pose proof (remove_locate_find item (_root self)) as Hloc.
  unfold find in *.
  destruct (find_recurse item (_root self)) as [v|] eqn:Hf; simpl; [|reflexivity].
  destruct Hloc as [t' Hloc]. exists t'. split; [assumption|].
  pose proof (remove_locate_count _ _ Hloc) as Hc.
  destruct (isEmpty self) eqn:E.
  { apply (size_ok_empty Hs) in E. rewrite E in Hc. simpl in Hc. lia. }
  rewrite Hloc. f_equal. f_equal.
  destruct (_size self - 1 =? 0)%Z eqn:E0; [|reflexivity].
  apply Z.eqb_eq in E0. red in Hs.
  symmetry. apply count_zero. lia.
Qed.

Lemma remove_size_ok (item : A) (self : LinkedBST A) :
  size_ok self -> size_ok (snd (remove item self)).
Proof.
  intros Hs. pose proof (remove_effect item Hs) as He.
  destruct (find self item).
  - destruct He as (t' & Hloc & ->). unfold size_ok. simpl.
    rewrite Hs, (remove_locate_count _ _ Hloc). lia.
  - rewrite He. exact Hs.
Qed.

Lemma remove_bst (item : A) (self : LinkedBST A) :
  size_ok self -> bst (_root self) -> bst (_root (snd (remove item self))).
Proof.
  intros Hs Hb. pose proof (remove_effect item Hs) as He.
  destruct (find self item).
  - destruct He as (t' & Hloc & ->). simpl.
    eapply remove_locate_bst; eassumption.
  - rewrite He. exact Hb.
Qed.

Lemma add_size_ok (item : A) (self : LinkedBST A) :
  size_ok self -> size_ok (snd (add item self)).
Proof.
  intros Hs. rewrite (add_insert item Hs). unfold size_ok. simpl.
  rewrite insert_count, Hs. lia.
Qed.

Lemma add_bst (item : A) (self : LinkedBST A) :
  size_ok self -> bst (_root self) -> bst (_root (snd (add item self))).
Proof.
  intros Hs Hb. rewrite (add_insert item Hs). simpl. apply insert_bst, Hb.
Qed.

Lemma replace_size_ok (item new_item : A) (self : LinkedBST A) :
  size_ok self -> size_ok (snd (replace item new_item self)).
Proof.
  intros Hs. unfold replace.
  destruct (replace_probe item new_item (_root self)) as [[old t']|] eqn:E; simpl.
  - unfold size_ok. simpl. rewrite (replace_probe_count _ _ _ E). exact Hs.
  - exact Hs.
Qed.

End Effects.

(** ** [predecessor] on an ordered tree *)

Section Neighbours.

Context {A : Type} {C : Comparable A} {T : TotalOrder A}.

Lemma py_max_fold (rest : list A) :
  forall x : A,
    let m := fold_left (fun m y => if py_gt y m then y else m) rest x in
    In m (x :: rest) /\ Forall (fun y => le y m) (x :: rest).
Proof.
  induction rest as [|y rest IH]; intros x; simpl.
  - split; [left; reflexivity | constructor; [apply le_refl | constructor]].
  - specialize (IH (if py_gt y x then y else x)). simpl in IH.
    destruct IH as [Hin Hall].
    inversion Hall as [|? ? Hx' Hrest]; subst.
    assert (le x (if py_gt y x then y else x) /\ le y (if py_gt y x then y else x))
      as [Hlx Hly].
    { rewrite py_gt_lt. destruct (py_lt x y) eqn:E.
      - split; [apply lt_le; exact E | apply le_refl].
      - split; [apply le_refl | exact E]. }
    split.
    + destruct Hin as [Hin|Hin]; [|right; right; exact Hin].
      destruct (py_gt y x); [right; left | left]; exact Hin.
    + constructor; [exact (le_trans Hlx Hx')|].
      constructor; [exact (le_trans Hly Hx') | exact Hrest].
Qed.

Lemma predecessor_loop_spec (item : A) (t : BSTNode A) :
  bst t -> t <> Absent ->
  forall acc, exists ps,
    predecessor_loop item t acc = Return (acc ++ ps) /\
    Forall (fun p => In p (inorder_recurse t) /\ lt p item) ps /\
    forall x, In x (inorder_recurse t) -> lt x item -> exists p, In p ps /\ le x p.
Proof.
  induction t as [|l IHl d r IHr]; intros Hb Hne acc; [congruence|].
  destruct Hb as (Hl & Hr & Hfl & Hfr).
  rewrite Forall_forall in Hfl, Hfr.
  (* the two branches that go down the left link *)
  assert (forall acc, (forall x, le d x -> ~ lt x item) ->
          exists ps,
            (if is_None l then Return acc else predecessor_loop item l acc)
            = Return (acc ++ ps) /\
            Forall (fun p => In p (inorder_recurse (Node l d r)) /\ lt p item) ps /\
            forall x, In x (inorder_recurse (Node l d r)) -> lt x item ->
                      exists p, In p ps /\ le x p) as Hleft.
  { intros acc0 Hno.
    destruct l as [|ll ld lr].
    - exists []. simpl. rewrite app_nil_r. repeat split; [constructor|].
      intros x [Hx|Hx] Hlt; exfalso.
      + subst. exact (Hno _ (le_refl _) Hlt).
      + exact (Hno _ (Hfr _ Hx) Hlt).
    - destruct (IHl Hl ltac:(congruence) acc0) as (ps & Hrun & Hps & Hall).
      exists ps. split; [exact Hrun|]. split.
      + eapply Forall_impl; [|exact Hps]. intros p [Hin Hlt].
        split; [|exact Hlt]. simpl. apply in_or_app. left. exact Hin.
      + intros x Hx Hlt. simpl in Hx. apply in_app_or in Hx.
        destruct Hx as [Hx|[Hx|Hx]].
        * apply Hall; assumption.
        * subst. exfalso. exact (Hno _ (le_refl _) Hlt).
        * exfalso. exact (Hno _ (Hfr _ Hx) Hlt). }
  unfold predecessor_loop; fold predecessor_loop.
  destruct (py_lt item d) eqn:E1.
  { apply Hleft. intros x Hdx Hlt.
    exact (lt_not_le (py_lt_trans _ _ _ Hlt E1) Hdx). }
  rewrite py_gt_lt.
  destruct (py_lt d item) eqn:E2.
  - (* the branch that records [d] and goes down the right link *)
    assert (forall x, In x (inorder_recurse l) \/ x = d -> le x d) as Hld.
    { intros x [Hx| ->]; [apply Hfl; exact Hx | apply le_refl]. }
    destruct r as [|rl rd rr].
    + exists [d]. simpl. split; [reflexivity|]. split.
      * constructor; [|constructor]. split; [|exact E2].
        apply in_or_app. right. left. reflexivity.
      * intros x Hx Hlt. exists d. split; [left; reflexivity|].
        apply in_app_or in Hx. destruct Hx as [Hx|[Hx|[]]]; apply Hld; auto.
    + destruct (IHr Hr ltac:(congruence) (acc ++ [d])) as (ps & Hrun & Hps & Hall).
      exists (d :: ps). split.
      { change (is_None (Node rl rd rr)) with false. cbv iota.
        rewrite Hrun, <- app_assoc. reflexivity. }
      split.
      * constructor.
        { split; [|exact E2]. simpl. apply in_or_app. right. left. reflexivity. }
        eapply Forall_impl; [|exact Hps]. intros p [Hin Hlt].
        split; [|exact Hlt].
        change (In p (inorder_recurse l ++ d :: inorder_recurse (Node rl rd rr))).
        apply in_or_app. right. right. exact Hin.
      * intros x Hx Hlt.
        change (In x (inorder_recurse l ++ d :: inorder_recurse (Node rl rd rr))) in Hx.
        apply in_app_or in Hx. destruct Hx as [Hx|[Hx|Hx]].
        -- exists d. split; [left; reflexivity | apply Hld; auto].
        -- exists d. split; [left; reflexivity | apply Hld; auto].
        -- destruct (Hall x Hx Hlt) as (p & Hp & Hle).
           exists p. split; [right; exact Hp | exact Hle].
  - (* neither below nor above: the items are equal *)
    assert (item = d) as -> by (apply py_lt_total; assumption).
    rewrite py_eq_refl.
    apply Hleft. intros x Hdx Hlt. exact (lt_not_le Hlt Hdx).
Qed.

Lemma predecessor_spec (self : LinkedBST A) (item : A) :
  bst (_root self) -> _root self <> Absent ->
  exists o, predecessor self item = Return o /\ is_predecessor (inorder self) item o.
Proof.
  intros Hb Hne. unfold predecessor.
  destruct (predecessor_loop_spec item Hb Hne []) as (ps & Hrun & Hps & Hall).
  rewrite Hrun. simpl.
  destruct ps as [|p ps]; simpl.
  - exists None. split; [reflexivity|].
    intros x Hx Hlt. destruct (Hall x Hx Hlt) as (p & [] & _).
  - eexists. split; [reflexivity|].
    destruct (py_max_fold ps p) as [Hin Hmax]. simpl in Hin, Hmax.
    rewrite Forall_forall in Hps, Hmax.
    destruct (Hps _ Hin) as [Hstored Hlt].
    repeat split; try assumption.
    intros x Hx Hxlt. destruct (Hall x Hx Hxlt) as (q & Hq & Hle).
    exact (le_trans Hle (Hmax _ Hq)).
Qed.

End Neighbours.

(** ** The shape [rebalance] gives to distinct items *)

Section Balance.

Context {A : Type} {C : Comparable A}.

Lemma balanced_S (fuel : nat) (lst : list A) :
  lst <> [] ->
  balanced (S fuel) lst =
  match nth_error lst (length lst / 2) with
  | None => Absent
  | Some x =>
      Node (balanced fuel (firstn (length lst / 2) lst)) x
           (balanced fuel (skipn (length lst / 2 + 1) lst))
  end.
Proof. destruct lst; [congruence | reflexivity]. Qed.

Lemma height1_Node (l : BSTNode A) (d : A) (r : BSTNode A) :
  height1 (Node l d r) = (1 + Z.max (height1 l) (height1 r))%Z.
Proof. reflexivity. Qed.

Lemma insert_all_left (ls : list A) (d : A) (r : BSTNode A) :
  Forall (fun x => py_lt x d = true) ls ->
  forall l, insert_all ls (Node l d r) = Node (insert_all ls l) d r.
Proof.
  induction 1 as [|x ls Hx _ IH]; intros l; simpl; [reflexivity|].
  rewrite Hx. apply IH.
Qed.

Lemma insert_all_right (rs : list A) (d : A) (l : BSTNode A) :
  Forall (fun x => py_lt x d = false) rs ->
  forall r, insert_all rs (Node l d r) = Node l d (insert_all rs r).
Proof.
  induction 1 as [|x rs Hx _ IH]; intros r; simpl; [reflexivity|].
  rewrite Hx. apply IH.
Qed.

Lemma balanced_height (fuel : nat) :
  forall (lst : list A) (k : Z),
    (0 <= k)%Z -> (Z.of_nat (length lst) < 2 ^ k)%Z ->
    (height1 (balanced fuel lst) < k)%Z.
Proof.
  induction fuel as [|fuel IH]; intros lst k Hk Hlen.
  - destruct lst; simpl; lia.
  - destruct (list_eq_dec_nil lst) as [->|Hne]; [simpl; lia|].
    destruct (mid_split Hne) as (x & Hx & Hsplit).
    rewrite (balanced_S fuel Hne), Hx.
    remember (firstn (length lst / 2) lst) as L eqn:HL.
    remember (skipn (length lst / 2 + 1) lst) as R eqn:HR.
    assert (length lst = length L + S (length R))%nat as Hl
      by (rewrite Hsplit, length_app; reflexivity).
    assert (length L = length lst / 2)%nat as HlL.
    { rewrite HL, length_firstn. apply Nat.min_l, Nat.Div0.div_le_upper_bound. lia. }
    assert (k <> 0)%Z as Hk0 by (intros ->; simpl in Hlen; lia).
    assert (2 ^ k = 2 * 2 ^ (k - 1))%Z as Hpow.
    { replace k with (Z.succ (k - 1)) at 1 by lia. apply Z.pow_succ_r. lia. }
    assert (2 * (length lst / 2) <= length lst)%nat as Hdiv
      by (apply Nat.Div0.mul_div_le).
    assert (length lst < 2 * (length lst / 2) + 2)%nat as Hdiv2.
    { pose proof (Nat.div_mod_eq (length lst) 2).
      pose proof (Nat.mod_upper_bound (length lst) 2). lia. }
    pose proof (IH L (k - 1)%Z ltac:(lia) ltac:(lia)) as HhL.
    pose proof (IH R (k - 1)%Z ltac:(lia) ltac:(lia)) as HhR.
    rewrite height1_Node. lia.
Qed.

Context {T : TotalOrder A}.

Lemma rebalance_order_balanced (fuel : nat) :
  forall lst : list A,
    StronglySorted lt lst -> (length lst <= fuel)%nat ->
    insert_all (rebalance_order fuel lst) Absent = balanced fuel lst.
Proof.
  induction fuel as [|fuel IH]; intros lst Hs Hlen.
  - destruct lst; [reflexivity | simpl in Hlen; lia].
  - destruct (list_eq_dec_nil lst) as [->|Hne]; [reflexivity|].
    destruct (mid_split Hne) as (x & Hx & Hsplit).
    rewrite (rebalance_order_S fuel Hne), (balanced_S fuel Hne), Hx.
    remember (firstn (length lst / 2) lst) as L eqn:HL.
    remember (skipn (length lst / 2 + 1) lst) as R eqn:HR.
    assert (length lst = length L + S (length R))%nat as Hl
      by (rewrite Hsplit, length_app; reflexivity).
    rewrite Hsplit in Hs. apply sorted_app in Hs.
    destruct Hs as (HsL & HsR & Hcross).
    apply StronglySorted_inv in HsR. destruct HsR as [HsR' HxR].
    simpl. rewrite insert_all_app.
    rewrite insert_all_left, insert_all_right.
    + rewrite !IH by (assumption || lia). reflexivity.
    + eapply Permutation_Forall;
        [symmetry; apply rebalance_order_perm; lia|].
      eapply Forall_impl; [|exact HxR]. intros y Hy. apply lt_le. exact Hy.
    + eapply Permutation_Forall;
        [symmetry; apply rebalance_order_perm; lia|].
      eapply Forall_impl; [|exact Hcross]. intros y Hy. inversion Hy; assumption.
Qed.

Lemma rebalance_balanced (self : LinkedBST A) :
  StronglySorted lt (inorder self) ->
  snd (rebalance self) =
  mkLinkedBST (balanced (length (inorder self)) (inorder self))
              (Z.of_nat (length (inorder self))).
Proof.
  intros Hs. rewrite rebalance_insert_all. simpl.
  rewrite rebalance_order_balanced; [reflexivity | exact Hs | lia].
Qed.

End Balance.

(** ** The states a program can reach *)

Section Reachability.

Context {A : Type} {C : Comparable A}.

Lemma run_reachable (ops : list operation) :
  forall (b : bool) (self self' : LinkedBST A) (o : result unit),
    reachable b self -> run ops self = (o, self') -> reachable b self'.
Proof.
  induction ops as [|op ops IH]; intros b self self' o Hr Hrun; simpl in Hrun.
  - inversion Hrun; subst. exact Hr.
  - destruct op as [item|item].
    + pose proof (reach_add item Hr) as Hr'.
      destruct (add item self) as [[u|e] s1]; simpl in Hr'.
      * eapply IH; eassumption.
      * inversion Hrun; subst. exact Hr'.
    + pose proof (reach_remove item Hr) as Hr'.
      destruct (remove item self) as [[u|e] s1]; simpl in Hr'.
      * eapply IH; eassumption.
      * inversion Hrun; subst. exact Hr'.
Qed.

Lemma add_all_reachable (items : list A) :
  forall (b : bool) (self : LinkedBST A),
    reachable b self -> reachable b (snd (add_all items self)).
Proof.
  induction items as [|x items IH]; intros b self Hr; simpl; [exact Hr|].
  pose proof (reach_add x Hr) as Hr'.
  destruct (add x self) as [[u|e] s1]; simpl in *; auto.
Qed.

Context {T : TotalOrder A}.

Lemma reachable_size_ok (b : bool) (self : LinkedBST A) :
  reachable b self -> size_ok self.
Proof.
  induction 1.
  - reflexivity.
  - apply add_size_ok; assumption.
  - apply remove_size_ok; assumption.
  - apply replace_size_ok; assumption.
  - reflexivity.
  - apply rebalance_size_ok.
Qed.

Lemma reachable_bst (self : LinkedBST A) :
  reachable false self -> bst (_root self).
Proof.
  intros Hr. remember false as b eqn:Hb.
  induction Hr.
  - exact I.
  - apply add_bst; [eapply reachable_size_ok; eassumption | auto].
  - apply remove_bst; [eapply reachable_size_ok; eassumption | auto].
  - congruence.
  - exact I.
  - apply rebalance_bst.
Qed.

Lemma reachable_well_formed (self : LinkedBST A) :
  reachable false self -> well_formed self.
Proof.
  intros Hr. split; [apply reachable_bst | eapply reachable_size_ok]; eassumption.
Qed.

End Reachability.

(** ** The integers and the strings as items *)

#[export] Instance TotalOrder_int : TotalOrder Z.
Proof.
  constructor; simpl.
  - intros x y. apply Z.eqb_eq.
  - intros x y. apply Z.gtb_ltb.
  - intros x y. unfold Z.geb, Z.ltb. destruct (x ?= y)%Z; reflexivity.
  - intros x. apply Z.ltb_irrefl.
  - intros x y z. rewrite !Z.ltb_lt. lia.
  - intros x y. rewrite !Z.ltb_ge. lia.
Qed.

(** Strings compare letter by letter. *)
Lemma ascii_compare_refl (a : Ascii.ascii) : Ascii.compare a a = Eq.
Proof. apply N.compare_refl. Qed.

Lemma ascii_compare_lt_trans (a b c : Ascii.ascii) :
  Ascii.compare a b = Lt -> Ascii.compare b c = Lt -> Ascii.compare a c = Lt.
Proof.
  unfold Ascii.compare. rewrite !N.compare_lt_iff. apply N.lt_trans.
Qed.

Lemma string_compare_refl (x : String.string) : String.compare x x = Eq.
Proof.
  induction x as [|a x IH]; simpl; [reflexivity|].
  rewrite ascii_compare_refl. exact IH.
Qed.

Lemma string_compare_lt_trans (x : String.string) :
  forall y z : String.string,
    String.compare x y = Lt -> String.compare y z = Lt -> String.compare x z = Lt.
Proof.
  induction x as [|a x IH]; intros [|b y] [|c z]; simpl; try congruence.
  destruct (Ascii.compare a b) eqn:Eab; destruct (Ascii.compare b c) eqn:Ebc;
    intros H1 H2; try discriminate.
  - apply Ascii.compare_eq_iff in Eab, Ebc. subst.
    rewrite ascii_compare_refl. eapply IH; eassumption.
  - apply Ascii.compare_eq_iff in Eab. subst. rewrite Ebc. reflexivity.
  - apply Ascii.compare_eq_iff in Ebc. subst. rewrite Eab. reflexivity.
  - rewrite (ascii_compare_lt_trans _ _ _ Eab Ebc). reflexivity.
Qed.

#[export] Instance TotalOrder_str : TotalOrder String.string.
Proof.
  constructor; simpl.
  - apply String.eqb_eq.
  - reflexivity.
  - intros x y. unfold String.leb, String.ltb.
    rewrite (String.compare_antisym x y).
    destruct (String.compare y x); reflexivity.
  - intros x. unfold String.ltb. rewrite string_compare_refl. reflexivity.
  - intros x y z. unfold String.ltb.
    destruct (String.compare x y) eqn:Exy; try discriminate.
    destruct (String.compare y z) eqn:Eyz; try discriminate.
    rewrite (string_compare_lt_trans _ _ _ Exy Eyz). reflexivity.
  - intros x y. unfold String.ltb.
    rewrite (String.compare_antisym x y).
    destruct (String.compare y x) eqn:E; simpl; try discriminate.
    intros _ _. symmetry. apply String.compare_eq_iff. exact E.
Qed.

Lemma tree_of_reachable {A : Type} {C : Comparable A} (b : bool) (items : list A) :
  reachable b (tree_of items).
Proof. apply add_all_reachable. constructor. Qed.

Lemma tree_of_inorder {A : Type} {C : Comparable A} (items : list A) :
  Permutation (inorder (tree_of items)) items.
Proof.
  unfold tree_of, LinkedBST_init.
  rewrite add_all_insert_all by reflexivity.
  unfold inorder. simpl. rewrite insert_all_perm. reflexivity.
Qed.

(** ** [range_find] on integers *)

Lemma range_find_loop_int (low high : Z) (items : list Z) :
  forall acc,
    range_find_loop low high items acc =
    Return (acc ++ filter (between low high) items).
Proof.
  induction items as [|x items IH]; intros acc; simpl.
  - rewrite app_nil_r. reflexivity.
  - rewrite IH. f_equal.
    assert ((low <=? x)%Z && (x <? high + 1)%Z = between low high x) as ->.
    { unfold between. simpl. rewrite !Z.geb_leb.
      destruct (Z.leb_spec low x), (Z.ltb_spec x (high + 1)), (Z.leb_spec x high);
        simpl; reflexivity || lia. }
    destruct (between low high x); [rewrite <- app_assoc|]; reflexivity.
Qed.

(** * The properties of the specification *)

(** C1. After every sequence of insertions and of removals that succeed,
    starting from the empty tree, the in-order traversal yields the items
    in non-decreasing order: no item is above an item that comes after it.
    Duplicates and removals of nodes with two children are included. *)
Theorem inorder_sorted_after_add_remove
  {A : Type} {C : Comparable A} {T : TotalOrder A}
  (ops : list operation) (self : LinkedBST A) :
  run ops init_empty = (Return tt, self) ->
  StronglySorted le (inorder self).
Proof.
  intros Hrun. apply bst_sorted, reachable_bst.
  eapply run_reachable; [apply reach_init | exact Hrun].
Qed.

Lemma inorder_sorted_after_add_remove_witness :
  StronglySorted le
    (inorder (snd (run [Insert 5; Insert 3; Insert 3; Insert 8; Insert 1;
                        Insert 4; Delete 5; Insert 4; Delete 3]%Z
                       init_empty))) /\
  StronglySorted le
    (inorder (snd (run [Insert "pear"; Insert "fig"; Insert "plum";
                        Insert "fig"; Delete "pear"]%string
                       init_empty))).
Proof.
  split.
  - apply (@inorder_sorted_after_add_remove Z _ _
             [Insert 5; Insert 3; Insert 3; Insert 8; Insert 1;
              Insert 4; Delete 5; Insert 4; Delete 3]%Z).
    reflexivity.
  - apply (@inorder_sorted_after_add_remove String.string _ _
             [Insert "pear"; Insert "fig"; Insert "plum";
              Insert "fig"; Delete "pear"]%string).
    reflexivity.
Defined.

(** C2.  [successor] does not return the least stored item strictly above
    its argument.  In the tree built by inserting 9, 7, 5, 3, 1 in this
    order, [successor(5)] returns 5, where 7 is the answer; in the tree
    built by inserting 2 then 1, [successor(1)] returns 1.  On the tree
    built by inserting 1, 3, 5, 7, 9 in ascending order the two results of
    the specification are obtained. *)
Theorem successor_returns_the_item_itself :
  successor (tree_of [9; 7; 5; 3; 1]%Z) 5%Z = Return (Some 5%Z) /\
  is_successor (inorder (tree_of [9; 7; 5; 3; 1]%Z)) 5%Z (Some 7%Z) /\
  ~ is_successor (inorder (tree_of [9; 7; 5; 3; 1]%Z)) 5%Z (Some 5%Z) /\
  successor (tree_of [2; 1]%Z) 1%Z = Return (Some 1%Z) /\
  successor (tree_of [1; 3; 5; 7; 9]%Z) 5%Z = Return (Some 7%Z) /\
  successor (tree_of [1; 3; 5; 7; 9]%Z) 9%Z = Return None.
Proof.
  split; [reflexivity|]. split; [|split; [|repeat split]].
  - simpl. split; [auto|]. split; [reflexivity|].
    intros x Hx Hlt. unfold lt, le in *. simpl in *.
    apply Z.ltb_lt in Hlt. apply Z.ltb_ge. lia.
  - simpl. intros (_ & Hlt & _). discriminate.
Qed.

(** C3. On an object whose counter is the number of its nodes,
    [remove(item)] raises exactly when [item in self] is false, which on an
    ordered tree is exactly when the item is not stored; the exception is
    [KeyError] and the object is left as it was.  When [remove] does not
    raise it returns a stored item equal to the argument, and that item
    leaves the in-order sequence. *)
Theorem remove_raises_iff_absent
  {A : Type} {C : Comparable A} {T : TotalOrder A}
  (self : LinkedBST A) (item : A) :
  size_ok self ->
  ((exists e, fst (remove item self) = Raise e) <-> contains self item = false) /\
  (bst (_root self) ->
   (contains self item = false <-> ~ In item (inorder self))) /\
  (forall e, fst (remove item self) = Raise e ->
             e = KeyError /\ snd (remove item self) = self) /\
  (forall o, fst (remove item self) = Return o ->
             exists v, o = Some v /\ py_eq v item = true /\ In v (inorder self) /\
                       exists xs ys, inorder self = xs ++ v :: ys /\
                                     inorder (snd (remove item self)) = xs ++ ys).
Proof.
  intros Hs.
  pose proof (remove_effect item Hs) as He.
  pose proof (@find_recurse_Some _ _ _ item) as Hsome.
  pose proof (@find_recurse_In _ _ _ item (_root self)) as Hin.
  unfold contains, find, inorder in *.
  destruct (find_recurse item (_root self)) as [v|] eqn:Hf.
  - destruct He as (t' & Hloc & ->). simpl.
    destruct (Hsome _ _ Hf) as [-> Hv].
    split; [|split; [|split]].
    + split; [intros [e He]; discriminate | discriminate].
    + intros _. split; [discriminate | intros Hno; contradiction].
    + intros e He. discriminate.
    + intros o Ho. inversion Ho; subst. exists item.
      repeat split; [apply py_eq_refl | exact Hv |].
      apply remove_locate_inorder in Hloc. exact Hloc.
  - rewrite He. simpl. split; [|split; [|split]].
    + split; [reflexivity | intros _; exists KeyError; reflexivity].
    + intros Hb. split; [|reflexivity].
      intros _ Hi. specialize (Hin Hb Hi). discriminate.
    + intros e Heq. inversion Heq. split; reflexivity.
    + intros o Ho. discriminate.
Qed.

Lemma remove_raises_iff_absent_witness :
  remove 6%Z (tree_of [5; 3; 3; 7]%Z) = (Raise KeyError, tree_of [5; 3; 3; 7]%Z) /\
  remove 5%Z (tree_of [5; 3; 3; 7]%Z) =
    (Return (Some 5%Z),
     mkLinkedBST (Node (Node Absent 3 Absent) 3 (Node Absent 7 Absent)) 3)%Z /\
  ((exists e, fst (remove 6%Z (tree_of [5; 3; 3; 7]%Z)) = Raise e) <->
   contains (tree_of [5; 3; 3; 7]%Z) 6%Z = false).
Proof.
  split; [reflexivity|]. split; [reflexivity|].
  apply (@remove_raises_iff_absent Z _ _ (tree_of [5; 3; 3; 7]%Z) 6%Z).
  reflexivity.
Defined.

(** C4. In every reachable state, calls of [replace] included, the counter
    [_size] is the number of nodes under the root, which is the number of
    items that iterating over the tree yields and the number the in-order
    traversal yields; [add] succeeds and increases the counter by one, for
    a duplicate as for a new item; a [remove] that returns decreases it by
    one; after [clear] it is zero. *)
Theorem size_counter_consistent
  {A : Type} {C : Comparable A} {T : TotalOrder A} (self : LinkedBST A) :
  reachable true self ->
  _size self = Z.of_nat (count (_root self)) /\
  (exists items, iter self = Return items /\ _size self = Z.of_nat (length items)) /\
  _size self = Z.of_nat (length (inorder self)) /\
  (forall item, exists self',
      add item self = (Return tt, self') /\ _size self' = (_size self + 1)%Z) /\
  (forall item o self',
      remove item self = (Return o, self') -> _size self' = (_size self - 1)%Z) /\
  _size (snd (clear self)) = 0%Z.
Proof.
  intros Hr. pose proof (reachable_size_ok Hr) as Hs.
  split; [exact Hs|]. split; [|split; [|split; [|split]]].
  - exists (preorder_recurse (_root self)).
    split; [apply iter_preorder; exact Hs|].
    rewrite preorder_length. exact Hs.
  - unfold inorder. rewrite inorder_length. exact Hs.
  - intros item. eexists. split; [apply add_insert; exact Hs | reflexivity].
  - intros item o self' Hrem.
    pose proof (remove_effect item Hs) as He.
    destruct (find self item).
    + destruct He as (t' & _ & He). rewrite He in Hrem.
      inversion Hrem; subst. reflexivity.
    + rewrite He in Hrem. discriminate.
  - reflexivity.
Qed.

Lemma size_counter_consistent_witness :
  _size (snd (replace 3 6 (tree_of [5; 3; 3; 7]))%Z) =
  Z.of_nat (count (_root (snd (replace 3 6 (tree_of [5; 3; 3; 7]))%Z))).
Proof.
  apply (@size_counter_consistent Z _ _ (snd (replace 3 6 (tree_of [5; 3; 3; 7]))%Z)).
  apply reach_replace; [reflexivity|]. apply tree_of_reachable.
Defined.

(** C5. On an ordered tree [rebalance] returns and keeps the stored items,
    each as many times as before; the in-order traversal afterwards is,
    item for item, the one before, and the counter is the number of
    items. *)
Theorem rebalance_preserves_inorder
  {A : Type} {C : Comparable A} {T : TotalOrder A} (self : LinkedBST A) :
  bst (_root self) ->
  exists self',
    rebalance self = (Return tt, self') /\
    Permutation (inorder self') (inorder self) /\
    inorder self' = inorder self /\
    _size self' = Z.of_nat (length (inorder self)).
Proof.
  intros Hb. eexists. split; [apply rebalance_insert_all|].
  pose proof (rebalance_perm self) as Hp.
  pose proof (rebalance_bst self) as Hb'.
  rewrite rebalance_insert_all in Hp, Hb'. simpl in Hp, Hb'.
  split; [exact Hp|]. split; [|reflexivity].
  apply sorted_perm_eq; [apply bst_sorted; exact Hb' | apply bst_sorted; exact Hb | exact Hp].
Qed.

Lemma rebalance_preserves_inorder_witness :
  inorder (snd (rebalance (tree_of [1; 2; 2; 3; 4; 5; 6]%Z))) = [1; 2; 2; 3; 4; 5; 6]%Z /\
  _root (tree_of [1; 2; 2; 3; 4; 5; 6]%Z) <>
  _root (snd (rebalance (tree_of [1; 2; 2; 3; 4; 5; 6]%Z))) /\
  exists self',
    rebalance (tree_of [1; 2; 2; 3; 4; 5; 6]%Z) = (Return tt, self') /\
    Permutation (inorder self') (inorder (tree_of [1; 2; 2; 3; 4; 5; 6]%Z)) /\
    inorder self' = inorder (tree_of [1; 2; 2; 3; 4; 5; 6]%Z) /\
    _size self' = Z.of_nat (length (inorder (tree_of [1; 2; 2; 3; 4; 5; 6]%Z))).
Proof.
  split; [reflexivity|]. split; [discriminate|].
  apply (@rebalance_preserves_inorder Z _ _ (tree_of [1; 2; 2; 3; 4; 5; 6]%Z)).
  simpl. repeat split; repeat constructor.
Defined.

(** C6, as amended.  On an ordered tree whose [n] items are pairwise
    distinct, [rebalance] returns and leaves a tree of height at most
    [ceil(log2(n+1)) - 1], on which [is_balanced] returns [True]. *)
Theorem rebalance_distinct_balanced
  {A : Type} {C : Comparable A} {T : TotalOrder A} (self : LinkedBST A) :
  bst (_root self) -> NoDup (inorder self) ->
  exists self',
    rebalance self = (Return tt, self') /\
    _size self' = Z.of_nat (length (inorder self)) /\
    (height self' <= Z.log2_up (Z.of_nat (length (inorder self)) + 1) - 1)%Z /\
    is_balanced self' = Return true.
Proof.
  intros Hb Hnd.
  assert (StronglySorted lt (inorder self)) as Hs
    by (apply sorted_le_nodup_lt; [apply bst_sorted; exact Hb | exact Hnd]).
  pose proof (rebalance_balanced self Hs) as Hbal.
  rewrite rebalance_insert_all in Hbal. simpl in Hbal.
  eexists. split; [apply rebalance_insert_all|]. rewrite Hbal.
  set (n := Z.of_nat (length (inorder self))).
  assert (height1 (balanced (length (inorder self)) (inorder self))
          < Z.log2_up (n + 1))%Z as Hh.
  { apply balanced_height; [apply Z.log2_up_nonneg|].
    pose proof (Z.log2_log2_up_spec (n + 1)). fold n. lia. }
  split; [reflexivity|]. split; [unfold height; simpl; lia|].
  unfold is_balanced, height. simpl. fold n.
  destruct (n + 1 <=? 0)%Z eqn:E; [apply Z.leb_le in E; lia|].
  f_equal. apply Z.leb_le. lia.
Qed.

Lemma rebalance_distinct_balanced_witness :
  exists self',
    rebalance (tree_of [1; 2; 3; 4; 5; 6; 7; 8; 9; 10]%Z) = (Return tt, self') /\
    _size self' = 10%Z /\
    (height self' <= 3)%Z /\
    is_balanced self' = Return true.
Proof.
  refine (@rebalance_distinct_balanced Z _ _
            (tree_of [1; 2; 3; 4; 5; 6; 7; 8; 9; 10]%Z) _ _).
  - simpl. repeat split; repeat constructor.
  - simpl. repeat constructor; simpl; intuition lia.
Defined.

(** C6, as stated, fails when items repeat: three equal items are added one
    to the right of the other, the height is 2 and [is_balanced] returns
    [False], where [ceil(log2(3+1)) - 1] is 1. *)
Lemma rebalance_duplicates_not_balanced :
  exists self',
    rebalance (tree_of [1; 1; 1]%Z) = (Return tt, self') /\
    _root self' = (Node Absent 1 (Node Absent 1 (Node Absent 1 Absent)))%Z /\
    _size self' = 3%Z /\
    height self' = 2%Z /\
    ~ (height self' <= Z.log2_up (3 + 1) - 1)%Z /\
    is_balanced self' = Return false.
Proof.
  eexists. split; [reflexivity|]. repeat split.
  simpl. intros Hle. apply Hle. reflexivity.
Qed.

(** C7.  [range_find] tests [item in range(low, high+1)], which is the
    test [low <= item <= high] on integers only.  On the tree of the
    strings "a", "b", "c", all within the bounds "a" and "c", it raises
    [TypeError]; on the tree of the floats 1.5 and 2.5, both within the
    bounds 1 and 3, it returns the empty list.  On the integers 1 to 10 with
    the bounds 3 and 7 it returns 3, 4, 5, 6, 7. *)
Theorem range_find_integers_only :
  range_find (tree_of ["a"; "b"; "c"]%string) "a"%string "c"%string
    = Raise TypeError /\
  filter (between "a" "c")%string (inorder (tree_of ["a"; "b"; "c"]%string))
    = ["a"; "b"; "c"]%string /\
  range_find (tree_of [PyFloat (QArith_base.Qmake 3 2); PyFloat (QArith_base.Qmake 5 2)])
             (PyInt 1) (PyInt 3)
    = Return [] /\
  filter (between (PyInt 1) (PyInt 3))
         (inorder (tree_of [PyFloat (QArith_base.Qmake 3 2);
                            PyFloat (QArith_base.Qmake 5 2)]))
    = [PyFloat (QArith_base.Qmake 3 2); PyFloat (QArith_base.Qmake 5 2)] /\
  range_find (tree_of [1; 2; 3; 4; 5; 6; 7; 8; 9; 10]%Z) 3%Z 7%Z
    = Return [3; 4; 5; 6; 7]%Z.
Proof. repeat split. Qed.

(** C8. On a non-empty ordered tree [predecessor(item)] returns the
    greatest stored item strictly below [item], or [None] when no stored
    item is strictly below it.  A tree built from 1, 3, 5, 7, 9, in any
    order of insertion, gives [predecessor(5) == 3] and
    [predecessor(1) == None]. *)
Theorem predecessor_greatest_below :
  (forall (A : Type) (C : Comparable A) (T : TotalOrder A)
          (self : LinkedBST A) (item : A),
      bst (_root self) -> _root self <> Absent ->
      exists o, predecessor self item = Return o /\
                is_predecessor (inorder self) item o) /\
  (forall xs : list Z,
      Permutation xs [1; 3; 5; 7; 9]%Z ->
      predecessor (tree_of xs) 5%Z = Return (Some 3%Z) /\
      predecessor (tree_of xs) 1%Z = Return None).
Proof.
  split.
  { intros A C T self item Hb Hne. apply predecessor_spec; assumption. }
  intros xs Hp.
  assert (Permutation (inorder (tree_of xs)) [1; 3; 5; 7; 9]%Z) as Hitems
    by (rewrite tree_of_inorder; exact Hp).
  assert (bst (_root (tree_of xs))) as Hb
    by (apply reachable_bst, tree_of_reachable).
  assert (_root (tree_of xs) <> Absent) as Hne.
  { intros Hr. unfold inorder in Hitems. rewrite Hr in Hitems.
    apply Permutation_nil in Hitems. discriminate. }
  assert (forall p, In p (inorder (tree_of xs)) <-> In p [1; 3; 5; 7; 9]%Z) as Hmem.
  { intros p. split; apply Permutation_in; [|symmetry]; exact Hitems. }
  split.
  - destruct (@predecessor_spec _ _ _ (tree_of xs) 5%Z Hb Hne) as (o & -> & Ho). f_equal.
    destruct o as [p|]; simpl in Ho.
    + destruct Ho as (Hin & Hlt & Hmax).
      assert (le 3%Z p) as Hle.
      { apply Hmax; [apply Hmem; simpl; auto | reflexivity]. }
      apply Hmem in Hin. unfold lt, le in *. simpl in Hlt, Hle.
      apply Z.ltb_lt in Hlt. apply Z.ltb_ge in Hle.
      simpl in Hin. f_equal. lia.
    + exfalso. apply (Ho 3%Z); [apply Hmem; simpl; auto | reflexivity].
  - destruct (@predecessor_spec _ _ _ (tree_of xs) 1%Z Hb Hne) as (o & -> & Ho). f_equal.
    destruct o as [p|]; simpl in Ho; [|reflexivity].
    destruct Ho as (Hin & Hlt & _).
    apply Hmem in Hin. unfold lt in Hlt. simpl in Hlt.
    apply Z.ltb_lt in Hlt. simpl in Hin. lia.
Qed.

Lemma predecessor_greatest_below_witness :
  exists o, predecessor (tree_of [5; 3; 8; 3; 1]%Z) 4%Z = Return o /\
            is_predecessor (inorder (tree_of [5; 3; 8; 3; 1]%Z)) 4%Z o.
Proof.
  apply (proj1 predecessor_greatest_below Z _ _ (tree_of [5; 3; 8; 3; 1]%Z) 4%Z).
  - simpl. repeat split; repeat constructor.
  - discriminate.
Defined.

(** C9, as amended.  The tree built by inserting 5, 3, 8, 1, 4, 7, 9 in this
    order has three full levels: [find(4)] returns 4 and [height()]
    returns 2. *)
Theorem scenario_find_and_height :
  find (tree_of [5; 3; 8; 1; 4; 7; 9]%Z) 4%Z = Some 4%Z /\
  height (tree_of [5; 3; 8; 1; 4; 7; 9]%Z) = 2%Z /\
  _root (tree_of [5; 3; 8; 1; 4; 7; 9]%Z) =
    (Node (Node (Node Absent 1 Absent) 3 (Node Absent 4 Absent)) 5
          (Node (Node Absent 7 Absent) 8 (Node Absent 9 Absent)))%Z.
Proof. repeat split. Qed.

(** C9, as stated, fails: the height of that tree is not 3. *)
Lemma scenario_height_is_not_3 :
  height (tree_of [5; 3; 8; 1; 4; 7; 9]%Z) <> 3%Z.
Proof. discriminate. Qed.

(** C10. On an empty tree, whatever the counter holds and whatever the
    argument, [successor] and [predecessor] do not return: both read
    [data] of the absent root, which raises [AttributeError]. *)
Theorem neighbours_of_empty_raise
  {A : Type} {C : Comparable A} (size : Z) (item : A) :
  successor (mkLinkedBST Absent size) item = Raise AttributeError /\
  predecessor (mkLinkedBST Absent size) item = Raise AttributeError.
Proof. split; reflexivity. Qed.

(** * Further properties *)

(** X1. On a tree of integers with integer bounds, [range_find(low, high)]
    returns the stored items [x] with [low <= x <= high], each as often as
    it is stored, in the order of the in-order traversal, which is
    ascending on an ordered tree. *)
Theorem range_find_on_integers (self : LinkedBST Z) (low high : Z) :
  range_find self low high = Return (filter (between low high) (inorder self)) /\
  (bst (_root self) ->
   StronglySorted le (filter (between low high) (inorder self))) /\
  (forall x, In x (filter (between low high) (inorder self)) <->
             In x (inorder self) /\ (low <= x <= high)%Z).
Proof.
  split; [apply range_find_loop_int|]. split.
  - intros Hb. apply bst_sorted in Hb. unfold inorder.
    induction Hb as [|a l Hs IH Ha]; simpl; [constructor|].
    destruct (between low high a); [|exact IH].
    constructor; [exact IH|].
    rewrite Forall_forall in *. intros x Hx.
    apply filter_In in Hx. apply Ha, Hx.
  - intros x. rewrite filter_In. unfold between. simpl.
    rewrite andb_true_iff, !Z.geb_leb, !Z.leb_le. tauto.
Qed.

(** X2. On an ordered tree [find(item)] returns the item when it is stored
    and [None] when it is not; whatever it returns equals the argument. *)
Theorem find_stored
  {A : Type} {C : Comparable A} {T : TotalOrder A}
  (self : LinkedBST A) (item : A) :
  bst (_root self) ->
  (In item (inorder self) -> find self item = Some item) /\
  (~ In item (inorder self) -> find self item = None) /\
  (contains self item = true <-> In item (inorder self)).
Proof.
  intros Hb.
  pose proof (@find_recurse_Some _ _ _ item) as Hsome.
  pose proof (@find_recurse_In _ _ _ item (_root self) Hb) as Hin.
  unfold contains, find, inorder in *.
  destruct (find_recurse item (_root self)) as [v|] eqn:Hf.
  - destruct (Hsome _ _ Hf) as [-> Hv].
    split; [reflexivity|]. split; [contradiction|]. tauto.
  - split; [exact Hin|]. split; [reflexivity|].
    split; [discriminate|]. intros Hi. specialize (Hin Hi). discriminate.
Qed.

Lemma find_stored_witness :
  find (tree_of [5; 3; 8; 1; 4; 7; 9]%Z) 7%Z = Some 7%Z /\
  find (tree_of [5; 3; 8; 1; 4; 7; 9]%Z) 6%Z = None.
Proof.
  destruct (@find_stored Z _ _ (tree_of [5; 3; 8; 1; 4; 7; 9]%Z) 7%Z) as (H7 & _).
  { simpl. repeat split; repeat constructor. }
  split; [apply H7; simpl; tauto | reflexivity].
Defined.

(** The removal scenario of the specification: in the tree built by
    inserting 5, 3, 8, 1, 4, 7, 9, [remove(5)] returns 5, puts 4, the
    greatest item of the left subtree, at the root, leaves six items, and
    [5 in self] is false afterwards. *)
Theorem scenario_remove_root :
  remove 5%Z (tree_of [5; 3; 8; 1; 4; 7; 9]%Z) =
    (Return (Some 5%Z),
     mkLinkedBST (Node (Node (Node Absent 1 Absent) 3 Absent) 4
                       (Node (Node Absent 7 Absent) 8 (Node Absent 9 Absent))) 6)%Z /\
  contains (snd (remove 5%Z (tree_of [5; 3; 8; 1; 4; 7; 9]%Z))) 5%Z = false.
Proof. split; reflexivity. Qed.

(** X4. [replace(item, new_item)] never raises.  When [find(item)] finds
    an item it returns that item and leaves a tree with as many nodes and
    the same counter; otherwise it returns [None] and leaves the object as
    it was. *)
Theorem replace_returns_old
  {A : Type} {C : Comparable A} {T : TotalOrder A}
  (self : LinkedBST A) (item new_item : A) :
  match find self item with
  | Some v =>
      exists self',
        replace item new_item self = (Return (Some v), self') /\
        count (_root self') = count (_root self) /\
        _size self' = _size self
  | None => replace item new_item self = (Return None, self)
  end.
Proof.
  assert (forall t,
             match find_recurse item t with
             | Some v => exists t', replace_probe item new_item t = Some (v, t')
             | None => replace_probe item new_item t = None
             end) as Hprobe.
  { induction t as [|l IHl d r IHr]; simpl; [reflexivity|].
    rewrite (py_eq_sym d item), py_gt_lt.
    destruct (py_eq item d); [eexists; reflexivity|].
    destruct (py_lt item d).
    - destruct (find_recurse item l).
      + destruct IHl as [l' ->]. eexists; reflexivity.
      + rewrite IHl. reflexivity.
    - destruct (find_recurse item r).
      + destruct IHr as [r' ->]. eexists; reflexivity.
      + rewrite IHr. reflexivity. }
  specialize (Hprobe (_root self)). unfold find, replace.
  destruct (find_recurse item (_root self)) as [v|].
  - destruct Hprobe as [t' Ht']. rewrite Ht'. eexists.
    split; [reflexivity|]. split; [|reflexivity].
    simpl. eapply replace_probe_count; exact Ht'.
  - rewrite Hprobe. reflexivity.
Qed.

Lemma replace_returns_old_witness :
  replace 3%Z 6%Z (tree_of [5; 3; 8]%Z) =
    (Return (Some 3%Z),
     mkLinkedBST (Node (Node Absent 6 Absent) 5 (Node Absent 8 Absent)) 3)%Z /\
  match find (tree_of [5; 3; 8]%Z) 4%Z with
  | Some v =>
      exists self',
        replace 4%Z 6%Z (tree_of [5; 3; 8]%Z) = (Return (Some v), self') /\
        count (_root self') = count (_root (tree_of [5; 3; 8]%Z)) /\
        _size self' = _size (tree_of [5; 3; 8]%Z)
  | None => replace 4%Z 6%Z (tree_of [5; 3; 8]%Z) = (Return None, tree_of [5; 3; 8]%Z)
  end.
Proof.
  split; [reflexivity|].
  exact (@replace_returns_old Z _ _ (tree_of [5; 3; 8]%Z) 4%Z 6%Z).
Defined.

(** X5. [rebalance] returns on every object, ordered or not, and leaves an
    ordered tree with the same items, each as many times as before, and a
    counter equal to their number. *)
Theorem rebalance_rebuilds_ordered
  {A : Type} {C : Comparable A} {T : TotalOrder A} (self : LinkedBST A) :
  exists self',
    rebalance self = (Return tt, self') /\
    Permutation (inorder self') (inorder self) /\
    bst (_root self') /\
    StronglySorted le (inorder self') /\
    size_ok self'.
Proof.
  pose proof (rebalance_perm self) as Hp.
  pose proof (rebalance_bst self) as Hb.
  pose proof (rebalance_size_ok self) as Hs.
  rewrite rebalance_insert_all in Hp, Hb, Hs. simpl in Hp, Hb, Hs.
  eexists. split; [apply rebalance_insert_all|].
  split; [exact Hp|]. split; [exact Hb|].
  split; [apply bst_sorted; exact Hb | exact Hs].
Qed.

Lemma rebalance_rebuilds_ordered_witness :
  inorder (snd (rebalance (snd (replace 3 9 (tree_of [5; 3; 8]))%Z))) = [5; 8; 9]%Z /\
  exists self',
    rebalance (snd (replace 3 9 (tree_of [5; 3; 8]))%Z) = (Return tt, self') /\
    Permutation (inorder self') (inorder (snd (replace 3 9 (tree_of [5; 3; 8]))%Z)) /\
    bst (_root self') /\
    StronglySorted le (inorder self') /\
    size_ok self'.
Proof.
  split; [reflexivity|].
  exact (@rebalance_rebuilds_ordered Z _ _ (snd (replace 3 9 (tree_of [5; 3; 8]))%Z)).
Defined.

(** X6. Iterating over an object whose counter is the number of its nodes
    yields the items in pre-order: the item of a node, then its left
    subtree, then its right subtree. *)
Theorem iter_is_preorder
  {A : Type} {C : Comparable A} (self : LinkedBST A) :
  size_ok self -> iter self = Return (preorder_recurse (_root self)).
Proof. apply iter_preorder. Qed.

Lemma iter_is_preorder_witness :
  iter (tree_of [5; 3; 8; 1; 4; 7; 9]%Z) = Return [5; 3; 1; 4; 8; 7; 9]%Z.
Proof.
  refine (@iter_is_preorder Z _ (tree_of [5; 3; 8; 1; 4; 7; 9]%Z) _). reflexivity.
Defined.

(** X7. In every reachable state, calls of [replace] included, the root is
    absent exactly when the counter is zero. *)
Theorem root_absent_iff_size_zero
  {A : Type} {C : Comparable A} {T : TotalOrder A} (self : LinkedBST A) :
  reachable true self -> (_root self = Absent <-> _size self = 0%Z).
Proof.
  intros Hr. pose proof (reachable_size_ok Hr) as Hs.
  rewrite <- (size_ok_empty Hs). unfold isEmpty. apply Z.eqb_eq.
Qed.

Lemma root_absent_iff_size_zero_witness :
  _root (snd (remove 5%Z (tree_of [5]%Z))) = Absent <->
  _size (snd (remove 5%Z (tree_of [5]%Z))) = 0%Z.
Proof.
  apply (@root_absent_iff_size_zero Z _ _ (snd (remove 5%Z (tree_of [5]%Z)))).
  apply reach_remove. apply tree_of_reachable.
Defined.

(** ** How [add], [find] and [remove] compose *)

Section Composition.

Context {A : Type} {C : Comparable A} {T : TotalOrder A}.

Lemma contains_iff_In (self : LinkedBST A) (y : A) :
  bst (_root self) -> (contains self y = true <-> In y (inorder self)).
Proof.
  intros Hb. unfold contains, find, inorder.
  destruct (find_recurse y (_root self)) as [v|] eqn:Hf.
  - destruct (find_recurse_Some _ _ Hf) as [-> Hv]. tauto.
  - split; [discriminate|]. intros Hi.
    rewrite (find_recurse_In _ _ Hb Hi) in Hf. discriminate.
Qed.

Lemma find_recurse_insert (item : A) (t : BSTNode A) :
  find_recurse item (insert item t) = Some item.
Proof.
  induction t as [|l IHl d r IHr]; simpl.
  - rewrite py_eq_refl. reflexivity.
  - destruct (py_lt item d) eqn:E; simpl.
    + destruct (py_eq item d) eqn:Eq.
      * apply py_eq_true in Eq. subst. reflexivity.
      * rewrite E. exact IHl.
    + destruct (py_eq item d) eqn:Eq.
      * apply py_eq_true in Eq. subst. reflexivity.
      * rewrite E. exact IHr.
Qed.

Lemma remove_locate_insert (item : A) (t : BSTNode A) :
  ~ In item (inorder_recurse t) ->
  remove_locate item (insert item t) = Some (item, t).
Proof.
  induction t as [|l IHl d r IHr]; intros Hno; simpl.
  - rewrite py_eq_refl. reflexivity.
  - simpl in Hno.
    assert (py_eq d item = false) as Hd.
    { destruct (py_eq d item) eqn:E; [|reflexivity].
      apply py_eq_true in E. subst. exfalso. apply Hno.
      apply in_or_app. right. left. reflexivity. }
    destruct (py_lt item d) eqn:E; simpl; rewrite Hd, py_gt_lt, E.
    + rewrite IHl; [reflexivity|].
      intros Hi. apply Hno. apply in_or_app. left. exact Hi.
    + rewrite IHr; [reflexivity|].
      intros Hi. apply Hno. apply in_or_app. right. right. exact Hi.
Qed.

Lemma bool_eq_iff (a b : bool) : (a = true <-> b = true) -> a = b.
Proof. destruct a, b; intuition congruence. Qed.

End Composition.

(** X8. On an ordered object whose counter is the number of its nodes,
    [add(item)] returns, stores one more occurrence of the item and nothing
    else, keeps the tree ordered, and afterwards [find(item)] returns the
    item and every item that was found before is still found. *)
Theorem add_then_find
  {A : Type} {C : Comparable A} {T : TotalOrder A}
  (self : LinkedBST A) (item : A) :
  size_ok self -> bst (_root self) ->
  exists self',
    add item self = (Return tt, self') /\
    Permutation (inorder self') (item :: inorder self) /\
    bst (_root self') /\
    find self' item = Some item /\
    (forall y, contains self y = true -> contains self' y = true).
Proof.
  intros Hs Hb. eexists. split; [apply add_insert; exact Hs|].
  assert (bst (insert item (_root self))) as Hb' by (apply insert_bst; exact Hb).
  split; [apply insert_perm|]. split; [exact Hb'|].
  split; [apply find_recurse_insert|].
  intros y Hy. apply (contains_iff_In _ y Hb) in Hy.
  apply contains_iff_In; [exact Hb'|].
  unfold inorder. simpl.
  eapply Permutation_in; [symmetry; apply insert_perm|]. right. exact Hy.
Qed.

Lemma add_then_find_witness :
  exists self',
    add 4%Z (tree_of [5; 3; 8; 4]%Z) = (Return tt, self') /\
    Permutation (inorder self') (4%Z :: inorder (tree_of [5; 3; 8; 4]%Z)) /\
    bst (_root self') /\
    find self' 4%Z = Some 4%Z /\
    (forall y, contains (tree_of [5; 3; 8; 4]%Z) y = true -> contains self' y = true).
Proof.
  apply (@add_then_find Z _ _ (tree_of [5; 3; 8; 4]%Z) 4%Z).
  - reflexivity.
  - simpl. repeat split; repeat constructor.
Defined.

(** X9. Adding an item that is not stored and removing it again gives back
    the object as it was, the shape of the tree and the counter included,
    and [remove] returns the item. *)
Theorem add_then_remove
  {A : Type} {C : Comparable A} {T : TotalOrder A}
  (self : LinkedBST A) (item : A) :
  size_ok self -> ~ In item (inorder self) ->
  remove item (snd (add item self)) = (Return (Some item), self).
Proof.
  intros Hs Hno. rewrite (add_insert item Hs). simpl.
  unfold remove, contains, find. simpl.
  rewrite find_recurse_insert. simpl.
  unfold isEmpty. simpl.
  assert (0 <= _size self)%Z as Hpos by (rewrite Hs; lia).
  destruct (_size self + 1 =? 0)%Z eqn:E; [apply Z.eqb_eq in E; lia|].
  rewrite (remove_locate_insert _ _ Hno).
  f_equal. destruct self as [root size]. simpl in *.
  replace (size + 1 - 1)%Z with size by lia.
  destruct (size =? 0)%Z eqn:E0; [|reflexivity].
  apply Z.eqb_eq in E0. f_equal. symmetry. apply count_zero.
  unfold size_ok in Hs. simpl in Hs. lia.
Qed.

Lemma add_then_remove_witness :
  remove 4%Z (snd (add 4%Z (tree_of [5; 3; 8]%Z))) =
  (Return (Some 4%Z), tree_of [5; 3; 8]%Z).
Proof.
  apply (@add_then_remove Z _ _ (tree_of [5; 3; 8]%Z) 4%Z).
  - reflexivity.
  - simpl. intuition discriminate.
Defined.

(** X10. On an ordered object whose counter is the number of its nodes,
    removing a stored item leaves every other item found exactly as before;
    when no item is stored twice, the removed item is no longer found. *)
Theorem remove_then_contains
  {A : Type} {C : Comparable A} {T : TotalOrder A}
  (self : LinkedBST A) (item : A) :
  size_ok self -> bst (_root self) -> In item (inorder self) ->
  (forall y, y <> item ->
             contains (snd (remove item self)) y = contains self y) /\
  (NoDup (inorder self) -> contains (snd (remove item self)) item = false).
Proof.
  intros Hs Hb Hin.
  pose proof (remove_bst item Hs Hb) as Hb'.
  pose proof (remove_effect item Hs) as He.
  pose proof (find_recurse_In _ _ Hb Hin) as Hf. unfold inorder in Hin.
  unfold find in He. rewrite Hf in He.
  destruct He as (t' & Hloc & Hrem). rewrite Hrem in *. simpl in *.
  destruct (remove_locate_inorder _ _ Hloc) as (xs & ys & H1 & H2).
  assert (forall y, contains (mkLinkedBST t' (_size self - 1)) y = true <->
                    In y (xs ++ ys)) as Hafter.
  { intros y. rewrite contains_iff_In by exact Hb'.
    unfold inorder. simpl. rewrite H2. tauto. }
  assert (forall y, contains self y = true <-> In y (xs ++ item :: ys)) as Hbefore.
  { intros y. rewrite contains_iff_In by exact Hb.
    unfold inorder. rewrite H1. tauto. }
  split.
  - intros y Hne. apply bool_eq_iff. rewrite Hafter, Hbefore.
    rewrite !in_app_iff. simpl. intuition congruence.
  - intros Hnd. unfold inorder in Hnd. rewrite H1 in Hnd.
    apply NoDup_remove_2 in Hnd.
    destruct (contains (mkLinkedBST t' (_size self - 1)) item) eqn:E; [|reflexivity].
    apply Hafter in E. contradiction.
Qed.

Lemma remove_then_contains_witness :
  (forall y, y <> 5%Z ->
     contains (snd (remove 5%Z (tree_of [5; 3; 8; 1; 4; 7; 9]%Z))) y =
     contains (tree_of [5; 3; 8; 1; 4; 7; 9]%Z) y) /\
  (NoDup (inorder (tree_of [5; 3; 8; 1; 4; 7; 9]%Z)) ->
   contains (snd (remove 5%Z (tree_of [5; 3; 8; 1; 4; 7; 9]%Z))) 5%Z = false).
Proof.
  apply (@remove_then_contains Z _ _ (tree_of [5; 3; 8; 1; 4; 7; 9]%Z) 5%Z).
  - reflexivity.
  - simpl. repeat split; repeat constructor.
  - simpl. tauto.
Defined.

(** X3. When the item to remove is at the root and the root has two
    children, [remove] returns the item of the root, puts in its place the
    last item of the in-order sequence of the left subtree, which on an
    ordered tree is the greatest item of that subtree, takes that item out
    of the left subtree and leaves the right subtree as it is. *)
Theorem remove_root_with_two_children
  {A : Type} {C : Comparable A} {T : TotalOrder A}
  (l r : BSTNode A) (d item : A) (size : Z) :
  size_ok (mkLinkedBST (Node l d r) size) ->
  py_eq d item = true -> l <> Absent -> r <> Absent ->
  exists l' m,
    remove item (mkLinkedBST (Node l d r) size) =
      (Return (Some d), mkLinkedBST (Node l' m r) (size - 1)) /\
    inorder_recurse l = inorder_recurse l' ++ [m] /\
    (bst (Node l d r) -> Forall (fun x => le x m) (inorder_recurse l')).
Proof.
  intros Hs Heq Hl Hr.
  destruct l as [|ll ld lr]; [congruence|].
  destruct r as [|rl rd rr]; [congruence|].
  pose proof (lift_max_inorder ll ld lr) as Hm.
  exists (snd (lift_max ll ld lr)), (fst (lift_max ll ld lr)).
  split; [|split; [exact Hm|]].
  - unfold remove, contains, find. simpl.
    rewrite py_eq_sym, Heq. simpl.
    unfold isEmpty. simpl.
    unfold size_ok in Hs. simpl in Hs.
    destruct (size =? 0)%Z eqn:E; [apply Z.eqb_eq in E; lia|].
    destruct (lift_max ll ld lr) as [m l']. simpl.
    destruct (size - 1 =? 0)%Z eqn:E1; [apply Z.eqb_eq in E1; lia|].
    reflexivity.
  - intros (Hbl & _). apply bst_sorted in Hbl.
    rewrite Hm in Hbl. apply sorted_app in Hbl.
    destruct Hbl as (_ & _ & Hcross).
    eapply Forall_impl; [|exact Hcross].
    intros x Hx. inversion Hx; assumption.
Qed.

Lemma remove_root_with_two_children_witness :
  exists l' m,
    remove 5%Z (tree_of [5; 3; 8; 1; 4; 7; 9]%Z) =
      (Return (Some 5%Z),
       mkLinkedBST (Node l' m (Node (Node Absent 7 Absent) 8 (Node Absent 9 Absent))) 6)%Z /\
    [1; 3; 4]%Z = inorder_recurse l' ++ [m] /\
    (bst (_root (tree_of [5; 3; 8; 1; 4; 7; 9]%Z)) ->
     Forall (fun x => le x m) (inorder_recurse l')).
Proof.
  refine (@remove_root_with_two_children Z _ _
            (Node (Node Absent 1 Absent) 3 (Node Absent 4 Absent))
            (Node (Node Absent 7 Absent) 8 (Node Absent 9 Absent))
            5 5 7 _ _ _ _)%Z.
  - reflexivity.
  - reflexivity.
  - discriminate.
  - discriminate.
Defined.

(** ** The constructor *)

(** X11. [LinkedBST(items)] returns for every list of items; the counter
    is the length of the list and the in-order traversal is the list in
    non-decreasing order, each item as often as it was given. *)
Theorem constructor_sorts
  {A : Type} {C : Comparable A} {T : TotalOrder A} (items : list A) :
  exists self,
    LinkedBST_init items = (Return tt, self) /\
    _size self = Z.of_nat (length items) /\
    size_ok self /\
    Permutation (inorder self) items /\
    StronglySorted le (inorder self).
Proof.
  unfold LinkedBST_init. rewrite add_all_insert_all by reflexivity.
  eexists. split; [reflexivity|]. simpl.
  split; [reflexivity|]. split; [|split].
  - unfold size_ok. simpl. rewrite insert_all_count. reflexivity.
  - unfold inorder. simpl. rewrite insert_all_perm. reflexivity.
  - apply bst_sorted. simpl. apply insert_all_bst. exact I.
Qed.

Lemma constructor_sorts_witness :
  inorder (tree_of ["pear"; "fig"; "plum"; "fig"; "apple"]%string)
    = ["apple"; "fig"; "fig"; "pear"; "plum"]%string /\
  exists self,
    LinkedBST_init ["pear"; "fig"; "plum"; "fig"; "apple"]%string = (Return tt, self) /\
    _size self = 5%Z /\
    size_ok self /\
    Permutation (inorder self) ["pear"; "fig"; "plum"; "fig"; "apple"]%string /\
    StronglySorted le (inorder self).
Proof.
  split; [reflexivity|].
  exact (@constructor_sorts String.string _ _
           ["pear"; "fig"; "plum"; "fig"; "apple"]%string).
Defined.

Section Chains.

Context {A : Type} {C : Comparable A}.

Lemma chain_app (xs ys : list A) :
  chain (xs ++ ys) = fold_right (fun item t => Node Absent item t) (chain ys) xs.
Proof. apply fold_right_app. Qed.

Lemma insert_chain_end (x : A) (ys : list A) :
  Forall (fun y => le y x) ys -> insert x (chain ys) = chain (ys ++ [x]).
Proof.
  induction 1 as [|y ys Hy _ IH]; simpl; [reflexivity|].
  rewrite Hy, IH. reflexivity.
Qed.

Lemma insert_all_chain (xs : list A) :
  forall ys, StronglySorted le (ys ++ xs) ->
             insert_all xs (chain ys) = chain (ys ++ xs).
Proof.
  induction xs as [|x xs IH]; intros ys Hs; simpl.
  - rewrite app_nil_r. reflexivity.
  - rewrite insert_chain_end.
    + rewrite IH; rewrite <- app_assoc; [reflexivity | exact Hs].
    + apply sorted_app in Hs. destruct Hs as (_ & _ & Hcross).
      eapply Forall_impl; [|exact Hcross].
      intros y Hy. inversion Hy; assumption.
Qed.

Lemma chain_inorder (xs : list A) : inorder_recurse (chain xs) = xs.
Proof. induction xs as [|x xs IH]; simpl; [|rewrite IH]; reflexivity. Qed.

Lemma chain_preorder (xs : list A) : preorder_recurse (chain xs) = xs.
Proof. induction xs as [|x xs IH]; simpl; [|rewrite IH]; reflexivity. Qed.

Lemma height1_lower (t : BSTNode A) : (-1 <= height1 t)%Z.
Proof.
  induction t as [|l IHl d r IHr]; [simpl; lia|].
  rewrite height1_Node. lia.
Qed.

Lemma chain_height (xs : list A) :
  height1 (chain xs) = (Z.of_nat (length xs) - 1)%Z.
Proof.
  induction xs as [|x xs IH]; [reflexivity|].
  change (chain (x :: xs)) with (Node Absent x (chain xs)).
  rewrite height1_Node, IH. simpl height1.
  pose proof (height1_lower (chain xs)). rewrite IH in H.
  change (length (x :: xs)) with (S (length xs)). lia.
Qed.

Lemma chain_is_None (xs : list A) : is_None (chain xs) = true <-> xs = [].
Proof. destruct xs; simpl; split; congruence. Qed.

End Chains.

(** X12. Built from a list that is already in non-decreasing order, the
    tree is a chain of right children: its height is the number of items
    minus one, and iterating over it yields the items in the order given. *)
Theorem sorted_input_gives_chain
  {A : Type} {C : Comparable A} (items : list A) :
  StronglySorted le items ->
  _root (tree_of items) = chain items /\
  height (tree_of items) = (Z.of_nat (length items) - 1)%Z /\
  iter (tree_of items) = Return items /\
  inorder (tree_of items) = items.
Proof.
  intros Hs.
  assert (tree_of items = mkLinkedBST (chain items) (Z.of_nat (length items))) as Ht.
  { unfold tree_of, LinkedBST_init. rewrite add_all_insert_all by reflexivity.
    simpl. f_equal. apply (insert_all_chain items []). exact Hs. }
  rewrite Ht. unfold height, inorder. simpl.
  split; [reflexivity|]. split; [apply chain_height|].
  split; [|apply chain_inorder].
  rewrite iter_preorder.
  - simpl. rewrite chain_preorder. reflexivity.
  - unfold size_ok. simpl. rewrite <- inorder_length, chain_inorder. reflexivity.
Qed.

Lemma sorted_input_gives_chain_witness :
  height (tree_of [1; 2; 2; 3; 5; 8]%Z) = 5%Z /\
  iter (tree_of [1; 2; 2; 3; 5; 8]%Z) = Return [1; 2; 2; 3; 5; 8]%Z.
Proof.
  destruct (@sorted_input_gives_chain Z _ [1; 2; 2; 3; 5; 8]%Z) as (_ & Hh & Hi & _).
  - repeat constructor.
  - split; [exact Hh | exact Hi].
Defined.

(** ** [successor]: what it does guarantee *)

Section SuccessorFacts.

Context {A : Type} {C : Comparable A} {T : TotalOrder A}.

Lemma successor_loop2_spec (item : A) (t : BSTNode A) :
  t <> Absent ->
  forall old, le item old ->
    exists p, successor_loop2 item t old = Return (Some p) /\
              (p = old \/ In p (inorder_recurse t)) /\ le item p.
Proof.
  induction t as [|l IHl d r _]; intros Hne old Hold; [congruence|].
  simpl. rewrite py_gt_lt.
  destruct (py_lt d item) eqn:E.
  - exists old. auto.
  - destruct l as [|ll ld lr].
    + exists d. simpl. auto.
    + destruct (IHl ltac:(congruence) d E) as (p & Hrun & Hp & Hle).
      exists p. simpl is_None. cbv iota. split; [exact Hrun|]. split; [|exact Hle].
      right. destruct Hp as [->|Hp].
      * apply in_or_app. right. left. reflexivity.
      * apply in_or_app. left. exact Hp.
Qed.

Lemma successor_loop1_spec (item : A) (t : BSTNode A) :
  bst t -> t <> Absent ->
  exists o, successor_loop1 item t = Return o /\
            (o = None <-> forall x, In x (inorder_recurse t) -> ~ lt item x) /\
            (forall p, o = Some p -> In p (inorder_recurse t) /\ le item p).
Proof.
  induction t as [|l _ d r IHr]; intros Hb Hne; [congruence|].
  destruct Hb as (Hl & Hr & Hfl & Hfr).
  rewrite Forall_forall in Hfl, Hfr.
  unfold successor_loop1; fold successor_loop1.
  rewrite py_ge_lt.
  destruct (py_lt item d) eqn:E; cbv beta iota; simpl negb; cbv iota.
  - destruct (@successor_loop2_spec item (Node l d r) ltac:(congruence) d
                (lt_le E)) as (p & Hrun & Hp & Hle).
    exists (Some p). split; [exact Hrun|]. split.
    + split; [discriminate|]. intros Hall. exfalso.
      apply (Hall d); [apply in_or_app; right; left; reflexivity | exact E].
    + intros q Hq. inversion Hq; subst q. split; [|exact Hle].
      destruct Hp as [->|Hp]; [|exact Hp].
      apply in_or_app. right. left. reflexivity.
  - assert (forall x, In x (inorder_recurse l) \/ x = d -> ~ lt item x) as Hlow.
    { intros x Hx Hlt.
      assert (le x d) as Hxd by (destruct Hx as [Hx| ->]; [apply Hfl; exact Hx | apply le_refl]).
      pose proof (lt_le_trans Hlt Hxd) as Hid. unfold lt in Hid. congruence. }
    destruct r as [|rl rd rr].
    + exists None. split; [reflexivity|]. split; [|discriminate].
      split; [|reflexivity]. intros _ x Hx.
      apply in_app_or in Hx. destruct Hx as [Hx|[Hx|[]]]; apply Hlow; auto.
    + destruct (IHr Hr ltac:(congruence)) as (o & Hrun & Hnone & Hsome).
      exists o. simpl is_None. cbv iota. split; [exact Hrun|]. split.
      * rewrite Hnone. split.
        -- intros Hall x Hx.
           change (In x (inorder_recurse l ++ d :: inorder_recurse (Node rl rd rr))) in Hx.
           apply in_app_or in Hx. destruct Hx as [Hx|[Hx|Hx]];
             [apply Hlow; auto | apply Hlow; auto | apply Hall; exact Hx].
        -- intros Hall x Hx. apply Hall.
           change (In x (inorder_recurse l ++ d :: inorder_recurse (Node rl rd rr))).
           apply in_or_app. right. right. exact Hx.
      * intros p Hp. destruct (Hsome p Hp) as [Hin Hle]. split; [|exact Hle].
        change (In p (inorder_recurse l ++ d :: inorder_recurse (Node rl rd rr))).
        apply in_or_app. right. right. exact Hin.
Qed.

Lemma successor_chain (item : A) (xs : list A) :
  StronglySorted le xs -> xs <> [] ->
  exists o, successor_loop1 item (chain xs) = Return o /\ is_successor xs item o.
Proof.
  induction 1 as [|x xs Hs IH Hx]; intros Hne; [congruence|].
  change (chain (x :: xs)) with (Node Absent x (chain xs)).
  unfold successor_loop1; fold successor_loop1.
  rewrite py_ge_lt.
  destruct (py_lt item x) eqn:E; cbv beta iota; simpl negb; cbv iota.
  - exists (Some x). split.
    + simpl. rewrite py_gt_lt.
      assert (py_lt x item = false) as -> by (apply lt_le; exact E). reflexivity.
    + simpl. split; [auto|]. split; [exact E|].
      rewrite Forall_forall in Hx.
      intros y [<-|Hy] _; [apply le_refl | apply Hx; exact Hy].
  - destruct (is_None (chain xs)) eqn:En.
    + apply chain_is_None in En. subst xs. exists None. split; [reflexivity|].
      simpl. intros y [<-|[]] Hlt. unfold lt in Hlt. congruence.
    + destruct IH as (o & Hrun & Ho).
      { intros ->. simpl in En. discriminate. }
      exists o. split; [exact Hrun|].
      destruct o as [p|]; simpl in *.
      * destruct Ho as (Hin & Hlt & Hmin). split; [auto|]. split; [exact Hlt|].
        intros y [<-|Hy] Hy'; [unfold lt in Hy'; congruence | apply Hmin; assumption].
      * intros y [<-|Hy] Hlt; [unfold lt in Hlt; congruence | exact (Ho y Hy Hlt)].
Qed.

End SuccessorFacts.

(** X13. On a non-empty ordered tree [successor(item)] returns.  It
    returns [None] exactly when no stored item is strictly above [item];
    an item it returns is stored and is not below [item]. *)
Theorem successor_never_below
  {A : Type} {C : Comparable A} {T : TotalOrder A}
  (self : LinkedBST A) (item : A) :
  bst (_root self) -> _root self <> Absent ->
  exists o, successor self item = Return o /\
            (o = None <-> forall x, In x (inorder self) -> ~ lt item x) /\
            (forall p, o = Some p -> In p (inorder self) /\ le item p).
Proof. intros Hb Hne. apply successor_loop1_spec; assumption. Qed.

Lemma successor_never_below_witness :
  exists o, successor (tree_of [9; 7; 5; 3; 1]%Z) 6%Z = Return o /\
            (o = None <->
             forall x, In x (inorder (tree_of [9; 7; 5; 3; 1]%Z)) -> ~ lt 6%Z x) /\
            (forall p, o = Some p ->
                       In p (inorder (tree_of [9; 7; 5; 3; 1]%Z)) /\ le 6%Z p).
Proof.
  apply (@successor_never_below Z _ _ (tree_of [9; 7; 5; 3; 1]%Z) 6%Z).
  - simpl. repeat split; repeat constructor.
  - discriminate.
Defined.

(** X14. On a tree built from a non-empty list in non-decreasing order,
    [successor(item)] returns the least stored item strictly above [item],
    or [None] when there is none. *)
Theorem successor_on_sorted_input
  {A : Type} {C : Comparable A} {T : TotalOrder A}
  (items : list A) (item : A) :
  StronglySorted le items -> items <> [] ->
  exists o, successor (tree_of items) item = Return o /\
            is_successor (inorder (tree_of items)) item o.
Proof.
  intros Hs Hne.
  assert (tree_of items = mkLinkedBST (chain items) (Z.of_nat (length items))) as Ht.
  { unfold tree_of, LinkedBST_init. rewrite add_all_insert_all by reflexivity.
    simpl. f_equal. apply (insert_all_chain items []). exact Hs. }
  rewrite Ht. unfold successor, inorder. simpl. rewrite chain_inorder.
  apply successor_chain; assumption.
Qed.

Lemma successor_on_sorted_input_witness :
  successor (tree_of [1; 3; 5; 7; 9]%Z) 5%Z = Return (Some 7%Z) /\
  exists o, successor (tree_of [1; 3; 5; 7; 9]%Z) 4%Z = Return o /\
            is_successor (inorder (tree_of [1; 3; 5; 7; 9]%Z)) 4%Z o.
Proof.
  split; [reflexivity|].
  apply (@successor_on_sorted_input Z _ _ [1; 3; 5; 7; 9]%Z 4%Z).
  - repeat constructor.
  - discriminate.
Defined.

(** ** [height] and [is_balanced] *)

Section Heights.

Context {A : Type} {C : Comparable A}.

Lemma height1_count (t : BSTNode A) :
  (height1 t + 1 <= Z.of_nat (count t))%Z /\
  (Z.of_nat (count t) + 1 <= 2 ^ (height1 t + 1))%Z.
Proof.
  induction t as [|l IHl d r IHr]; [simpl; lia|].
  rewrite height1_Node.
  pose proof (height1_lower l) as Hl. pose proof (height1_lower r) as Hr.
  destruct IHl as [IHl1 IHl2], IHr as [IHr1 IHr2].
  change (count (Node l d r)) with (S (count l + count r)).
  split; [lia|].
  assert (2 ^ (height1 l + 1) <= 2 ^ (Z.max (height1 l) (height1 r) + 1))%Z
    by (apply Z.pow_le_mono_r; lia).
  assert (2 ^ (height1 r + 1) <= 2 ^ (Z.max (height1 l) (height1 r) + 1))%Z
    by (apply Z.pow_le_mono_r; lia).
  replace (1 + Z.max (height1 l) (height1 r) + 1)%Z
    with (Z.succ (Z.max (height1 l) (height1 r) + 1)) by lia.
  rewrite Z.pow_succ_r by lia. lia.
Qed.

Lemma insert_height (item : A) (t : BSTNode A) :
  (height1 t <= height1 (insert item t) <= height1 t + 1)%Z.
Proof.
  induction t as [|l IHl d r IHr]; [simpl; lia|].
  simpl insert. destruct (py_lt item d); rewrite !height1_Node; lia.
Qed.

Lemma lift_max_height (l : BSTNode A) (d : A) (r : BSTNode A) :
  (height1 (snd (lift_max l d r)) <= height1 (Node l d r))%Z.
Proof.
  revert l d. induction r as [|rl _ rd rr IH]; intros l d.
  - simpl lift_max. simpl snd. rewrite height1_Node. lia.
  - specialize (IH rl rd). simpl lift_max.
    destruct (lift_max rl rd rr) as [m r']. simpl snd in *.
    rewrite (height1_Node l d (Node rl rd rr)), height1_Node. lia.
Qed.

Lemma unlink_height (l : BSTNode A) (d : A) (r : BSTNode A) :
  (height1 (unlink l d r) <= height1 (Node l d r))%Z.
Proof.
  destruct l as [|ll ld lr], r as [|rl rd rr]; unfold unlink.
  - simpl. lia.
  - rewrite (height1_Node Absent d). lia.
  - rewrite (height1_Node _ d Absent). lia.
  - pose proof (lift_max_height ll ld lr) as Hm.
    destruct (lift_max ll ld lr) as [m l']. simpl snd in Hm.
    rewrite (height1_Node l' m), (height1_Node (Node ll ld lr) d). lia.
Qed.

Lemma remove_locate_height (item v : A) (t t' : BSTNode A) :
  remove_locate item t = Some (v, t') -> (height1 t' <= height1 t)%Z.
Proof.
  revert t'. induction t as [|l IHl d r IHr]; intros t' Hr; simpl in Hr; [discriminate|].
  destruct (py_eq d item).
  - inversion Hr; subst. apply unlink_height.
  - destruct (py_gt d item).
    + destruct (remove_locate item l) as [[v0 l']|]; [|discriminate].
      inversion Hr; subst. specialize (IHl _ eq_refl).
      rewrite !height1_Node. lia.
    + destruct (remove_locate item r) as [[v0 r']|]; [|discriminate].
      inversion Hr; subst. specialize (IHr _ eq_refl).
      rewrite !height1_Node. lia.
Qed.

End Heights.

(** X15. On an object whose counter [n] is the number of its nodes,
    [is_balanced] returns without raising; the height lies between
    [ceil(log2(n+1)) - 1] and [n - 1], and [is_balanced] returns [True]
    exactly when the height is [ceil(log2(n+1)) - 1], the least height a
    tree of [n] nodes can have. *)
Theorem is_balanced_means_least_height
  {A : Type} {C : Comparable A} (self : LinkedBST A) :
  size_ok self ->
  (Z.log2_up (_size self + 1) - 1 <= height self <= _size self - 1)%Z /\
  (_size self + 1 <= 2 ^ (height self + 1))%Z /\
  is_balanced self = Return (height self =? Z.log2_up (_size self + 1) - 1)%Z.
Proof.
  intros Hs. unfold height, is_balanced, height.
  destruct (height1_count (_root self)) as [H1 H2].
  pose proof (height1_lower (_root self)) as Hl.
  rewrite <- Hs in H1, H2.
  assert (Z.log2_up (_size self + 1) <= height1 (_root self) + 1)%Z as Hlog
    by (apply Z.log2_up_le_pow2; [rewrite Hs; lia | exact H2]).
  split; [lia|]. split; [exact H2|].
  destruct (_size self + 1 <=? 0)%Z eqn:E; [apply Z.leb_le in E; rewrite Hs in E; lia|].
  f_equal.
  destruct (Z.leb_spec (height1 (_root self)) (Z.log2_up (_size self + 1) - 1)),
           (Z.eqb_spec (height1 (_root self)) (Z.log2_up (_size self + 1) - 1));
    reflexivity || lia.
Qed.

Lemma is_balanced_means_least_height_witness :
  is_balanced (tree_of [1; 2; 3; 4]%Z) = Return false /\
  is_balanced (tree_of [3; 2; 4; 1]%Z) = Return true /\
  (Z.log2_up (4 + 1) - 1 <= height (tree_of [3; 2; 4; 1]%Z) <= 4 - 1)%Z.
Proof.
  split; [reflexivity|]. split; [reflexivity|].
  exact (proj1 (@is_balanced_means_least_height Z _ (tree_of [3; 2; 4; 1]%Z) eq_refl)).
Defined.

(** X16. On an object whose counter is the number of its nodes, [add]
    never lowers the height and raises it by at most one, and [remove]
    never raises it. *)
Theorem height_after_add_and_remove
  {A : Type} {C : Comparable A} {T : TotalOrder A}
  (self : LinkedBST A) (item : A) :
  size_ok self ->
  (height self <= height (snd (add item self)) <= height self + 1)%Z /\
  (height (snd (remove item self)) <= height self)%Z.
Proof.
  intros Hs. split.
  - rewrite (add_insert item Hs). unfold height. simpl. apply insert_height.
  - pose proof (remove_effect item Hs) as He.
    destruct (find self item).
    + destruct He as (t' & Hloc & ->). unfold height. simpl.
      eapply remove_locate_height; exact Hloc.
    + rewrite He. simpl. lia.
Qed.

Lemma height_after_add_and_remove_witness :
  (height (tree_of [5; 3; 8]%Z) <= height (snd (add 5%Z (tree_of [5; 3; 8]%Z)))
   <= height (tree_of [5; 3; 8]%Z) + 1)%Z /\
  (height (snd (remove 5%Z (tree_of [5; 3; 8]%Z))) <= height (tree_of [5; 3; 8]%Z))%Z.
Proof.
  apply (@height_after_add_and_remove Z _ _ (tree_of [5; 3; 8]%Z) 5%Z). reflexivity.
Defined.

(** ** [rebalance] twice, and the two traversals *)

(** X17. On an ordered tree a second [rebalance] changes nothing: it
    returns and leaves the object the first one left. *)
Theorem rebalance_twice
  {A : Type} {C : Comparable A} {T : TotalOrder A} (self : LinkedBST A) :
  bst (_root self) ->
  rebalance (snd (rebalance self)) = (Return tt, snd (rebalance self)).
Proof.
  intros Hb.
  assert (inorder (snd (rebalance self)) = inorder self) as Heq.
  { apply sorted_perm_eq.
    - apply bst_sorted, rebalance_bst.
    - apply bst_sorted, Hb.
    - apply rebalance_perm. }
  rewrite (rebalance_insert_all (snd (rebalance self))), Heq.
  rewrite (rebalance_insert_all self). reflexivity.
Qed.

Lemma rebalance_twice_witness :
  rebalance (snd (rebalance (tree_of [1; 2; 2; 3; 4; 5; 6]%Z))) =
  (Return tt, snd (rebalance (tree_of [1; 2; 2; 3; 4; 5; 6]%Z))).
Proof.
  apply (@rebalance_twice Z _ _ (tree_of [1; 2; 2; 3; 4; 5; 6]%Z)).
  simpl. repeat split; repeat constructor.
Defined.

Lemma preorder_perm_inorder {A : Type} (t : BSTNode A) :
  Permutation (preorder_recurse t) (inorder_recurse t).
Proof.
  induction t as [|l IHl d r IHr]; simpl; [reflexivity|].
  rewrite IHl, IHr. apply Permutation_middle.
Qed.

(** X18. On an object whose counter is the number of its nodes, iterating
    yields the same items as the in-order traversal, each as many times;
    when the tree is not empty the first item yielded is the one at the
    root. *)
Theorem iter_yields_the_stored_items
  {A : Type} {C : Comparable A} (self : LinkedBST A) :
  size_ok self ->
  exists items,
    iter self = Return items /\
    Permutation items (inorder self) /\
    (forall l d r, _root self = Node l d r -> hd_error items = Some d).
Proof.
  intros Hs. exists (preorder_recurse (_root self)).
  split; [apply iter_preorder; exact Hs|].
  split; [apply preorder_perm_inorder|].
  intros l d r ->. reflexivity.
Qed.

Lemma iter_yields_the_stored_items_witness :
  exists items,
    iter (tree_of [5; 3; 8; 1; 4]%Z) = Return items /\
    Permutation items (inorder (tree_of [5; 3; 8; 1; 4]%Z)) /\
    (forall l d r, _root (tree_of [5; 3; 8; 1; 4]%Z) = Node l d r ->
                   hd_error items = Some d).
Proof.
  apply (@iter_yields_the_stored_items Z _ (tree_of [5; 3; 8; 1; 4]%Z)). reflexivity.
Defined.

(** ** [replace] in place *)

Lemma replace_probe_inorder {A : Type} {C : Comparable A}
  (item new_item old : A) (t t' : BSTNode A) :
  replace_probe item new_item t = Some (old, t') ->
  py_eq old item = true /\
  height1 t' = height1 t /\
  exists xs ys, inorder_recurse t = xs ++ old :: ys /\
                inorder_recurse t' = xs ++ new_item :: ys.
Proof.
  revert t'. induction t as [|l IHl d r IHr]; intros t' Hr; simpl in Hr; [discriminate|].
  destruct (py_eq d item) eqn:E.
  - inversion Hr; subst. split; [exact E|]. split; [reflexivity|].
    exists (inorder_recurse l), (inorder_recurse r). split; reflexivity.
  - destruct (py_gt d item).
    + destruct (replace_probe item new_item l) as [[o l']|]; [|discriminate].
      inversion Hr; subst.
      destruct (IHl _ eq_refl) as (He & Hh & xs & ys & H1 & H2).
      split; [exact He|]. split; [rewrite !height1_Node, Hh; reflexivity|].
      exists xs, (ys ++ d :: inorder_recurse r). simpl.
      rewrite H1, H2, <- !app_assoc. split; reflexivity.
    + destruct (replace_probe item new_item r) as [[o r']|]; [|discriminate].
      inversion Hr; subst.
      destruct (IHr _ eq_refl) as (He & Hh & xs & ys & H1 & H2).
      split; [exact He|]. split; [rewrite !height1_Node, Hh; reflexivity|].
      exists (inorder_recurse l ++ d :: xs), ys. simpl.
      rewrite H1, H2, <- !app_assoc. split; reflexivity.
Qed.

Lemma replace_probe_same {A : Type} {C : Comparable A} {T : TotalOrder A}
  (item old : A) (t t' : BSTNode A) :
  replace_probe item item t = Some (old, t') -> t' = t.
Proof.
  revert t'. induction t as [|l IHl d r IHr]; intros t' Hr; simpl in Hr; [discriminate|].
  destruct (py_eq d item) eqn:E.
  - inversion Hr; subst. apply py_eq_true in E. subst. reflexivity.
  - destruct (py_gt d item).
    + destruct (replace_probe item item l) as [[o l']|]; [|discriminate].
      inversion Hr; subst. rewrite (IHl _ eq_refl). reflexivity.
    + destruct (replace_probe item item r) as [[o r']|]; [|discriminate].
      inversion Hr; subst. rewrite (IHr _ eq_refl). reflexivity.
Qed.

(** X19. [replace(item, new_item)] never raises.  When it returns an item,
    that item equals [item], the new item stands in the in-order sequence
    where the old one stood and nothing else moved, and the height and the
    counter are what they were; when it returns [None] the object is as it
    was.  Replacing an item by itself leaves the object as it was. *)
Theorem replace_in_place
  {A : Type} {C : Comparable A} {T : TotalOrder A}
  (self : LinkedBST A) (item new_item : A) :
  match replace item new_item self with
  | (Return (Some old), self') =>
      py_eq old item = true /\
      height self' = height self /\
      _size self' = _size self /\
      exists xs ys, inorder self = xs ++ old :: ys /\
                    inorder self' = xs ++ new_item :: ys
  | (Return None, self') => self' = self
  | (Raise _, _) => False
  end /\
  snd (replace item item self) = self.
Proof.
  split.
  - unfold replace.
    destruct (replace_probe item new_item (_root self)) as [[old t']|] eqn:E;
      [|reflexivity].
    destruct (replace_probe_inorder _ _ _ E) as (He & Hh & Hio).
    split; [exact He|]. split; [exact Hh|]. split; [reflexivity | exact Hio].
  - unfold replace.
    destruct (replace_probe item item (_root self)) as [[old t']|] eqn:E;
      [|reflexivity].
    simpl. rewrite (replace_probe_same _ _ E). destruct self; reflexivity.
Qed.

Lemma replace_in_place_witness :
  replace 3%Z 4%Z (tree_of [5; 3; 8; 1]%Z) =
    (Return (Some 3%Z),
     mkLinkedBST (Node (Node (Node Absent 1 Absent) 4 Absent) 5 (Node Absent 8 Absent)) 4)%Z /\
  snd (replace 3%Z 3%Z (tree_of [5; 3; 8; 1]%Z)) = tree_of [5; 3; 8; 1]%Z.
Proof.
  split; [reflexivity|].
  exact (proj2 (@replace_in_place Z _ _ (tree_of [5; 3; 8; 1]%Z) 3%Z 3%Z)).
Defined.

(** ** [__str__] *)

Lemma string_append_assoc (a b c : String.string) :
  String.append (String.append a b) c = String.append a (String.append b c).
Proof. induction a as [|ch a IH]; simpl; [|rewrite IH]; reflexivity. Qed.

Lemma render_app {A : Type} (str : A -> String.string) (a b : list (nat * A)) :
  render str (a ++ b) = String.append (render str a) (render str b).
Proof.
  induction a as [|row a IH]; simpl; [reflexivity|].
  rewrite IH, !string_append_assoc. reflexivity.
Qed.

Lemma str_recurse_render {A : Type} (str : A -> String.string) (node : BSTNode A) :
  forall level, str_recurse str node level = render str (rows node level).
Proof.
  induction node as [|l IHl d r IHr]; intros level; simpl; [reflexivity|].
  rewrite render_app, IHr, IHl. reflexivity.
Qed.

Lemma rows_items {A : Type} (node : BSTNode A) :
  forall level, map snd (rows node level) = rev (inorder_recurse node).
Proof.
  induction node as [|l IHl d r IHr]; intros level; simpl; [reflexivity|].
  rewrite map_app, rev_app_distr. simpl.
  rewrite IHr, IHl, <- app_assoc. reflexivity.
Qed.

Lemma rows_levels {A : Type} (node : BSTNode A) :
  forall level,
    Forall (fun row => (level <= fst row)%nat /\
                       (Z.of_nat (fst row) <= Z.of_nat level + height1 node)%Z)
           (rows node level).
Proof.
  induction node as [|l IHl d r IHr]; intros level; simpl rows; [constructor|].
  rewrite height1_Node.
  pose proof (height1_lower l). pose proof (height1_lower r).
  apply Forall_app. split; [|constructor].
  - eapply Forall_impl; [|apply IHr]. cbv beta. intros row [H1 H2]. lia.
  - cbn [fst]. lia.
  - eapply Forall_impl; [|apply IHl]. cbv beta. intros row [H1 H2]. lia.
Qed.

(** X20. [str(tree)] is one line per stored item, from the last item of
    the in-order traversal to the first: each line is the item preceded by
    one ["| "] per level of depth of its node, at most [height()] of them,
    and followed by a line feed. *)
Theorem str_lists_items_in_reverse_inorder
  {A : Type} (str : A -> String.string) (self : LinkedBST A) :
  LinkedBST_str str self = render str (rows (_root self) 0) /\
  map snd (rows (_root self) 0) = rev (inorder_recurse (_root self)) /\
  Forall (fun row => (Z.of_nat (fst row) <= height1 (_root self))%Z)
         (rows (_root self) 0).
Proof.
  split; [apply str_recurse_render|]. split; [apply rows_items|].
  eapply Forall_impl; [|apply rows_levels]. simpl. intros row [_ H]. exact H.
Qed.

(** ** [range_find] on strings *)

(** X21. On a tree of strings [range_find] returns the empty list when the
    tree is empty, whatever the bounds, and raises [TypeError] as soon as
    the tree holds an item. *)
Theorem range_find_on_strings
  (self : LinkedBST String.string) (low high : String.string) :
  range_find self low high =
  if is_None (_root self) then Return [] else Raise TypeError.
Proof.
  unfold range_find, inorder.
  destruct (_root self) as [|l d r]; [reflexivity|].
  simpl is_None. cbv iota.
  destruct (inorder_recurse (Node l d r)) as [|x rest] eqn:E; [|reflexivity].
  simpl in E. destruct (inorder_recurse l); discriminate.
Qed.
